(** * Exotic bet optimizer: calibration, joint probabilities, Kelly sizing
      and EV signals

    A shallow embedding of [exotic_bet_optimizer.py].

    Numbers.  The program computes with Python floats.  They are modelled
    here as exact rationals ([Q]): every theorem below is about the
    formulas the code evaluates, not about binary64 rounding, NaN or
    infinities.  Equality of numbers is [Qeq] ([==]).

    Errors.  A Python float division raises [ZeroDivisionError] when the
    divisor is zero, [next] raises [StopIteration] on an exhausted
    generator: the functions that can raise return a [result], and are
    written in its monad.

    Dictionaries.  A Python [dict] keeps its keys in insertion order and
    the generators iterate over [.items()]; it is modelled as an
    association list with unique keys ([PyDict]).

    Sorting.  [sorted(..., reverse=True)] and [list.sort(reverse=True)] are
    stable: elements with equal keys keep their original order.  They are
    modelled by a stable insertion sort ([sorted_desc]). *)

From Stdlib Require Import QArith Qminmax ZArith List Bool Lia Lqa.
From Stdlib Require String.
From Stdlib Require Import Permutation Sorted.
Import ListNotations.

Open Scope Q_scope.

(** ** Floats as rationals, Python comparisons *)

Definition float := Q.

(** [a < b] on floats, as a boolean. *)
Definition Qltb (a b : Q) : bool := negb (Qle_bool b a).

(** Python's [min(a, b)]: the first argument unless the second is smaller. *)
Definition py_min (a b : Q) : Q := if Qltb b a then b else a.

(** Python's [max(a, b)]: the first argument unless the second is larger. *)
Definition py_max (a b : Q) : Q := if Qltb a b then b else a.

(** Python's [sum(xs)]: starts from 0 and adds from the left. *)
Definition py_sum (xs : list Q) : Q := fold_left Qplus xs 0.

(** [np.prod(xs)]: starts from 1 and multiplies from the left. *)
Definition np_prod (xs : list Q) : Q := fold_left Qmult xs 1.

(** [np.mean(xs)] of a non-empty list (numpy returns nan, without raising,
    on an empty one; the code only calls it on the horses of a combination). *)
Definition np_mean (xs : list Q) : Q :=
  py_sum xs / inject_Z (Z.of_nat (length xs)).

(** ** The exception monad *)

(** The exceptions the modelled code can raise. *)
Inductive exn : Type :=
  | ZeroDivisionError   (* float division by zero *)
  | StopIteration       (* [next] on an exhausted generator *)
  | IndexError          (* tuple index out of range *)
  | ValueError.         (* [list.remove(x)]: x not in list *)

Inductive result (A : Type) : Type :=
  | Ok (a : A)
  | Raise (e : exn).

Arguments Ok {A} a.
Arguments Raise {A} e.

Definition bind {A B : Type} (m : result A) (k : A -> result B) : result B :=
  match m with
  | Ok a => k a
  | Raise e => Raise e
  end.

Notation "x <- m ;; k" := (bind m (fun x => k))
  (at level 61, m at next level, right associativity).

Fixpoint mapM {A B : Type} (f : A -> result B) (l : list A) : result (list B) :=
  match l with
  | [] => Ok []
  | a :: t => b <- f a ;; bs <- mapM f t ;; Ok (b :: bs)
  end.

(** Float division: a zero divisor raises [ZeroDivisionError]. *)
Definition fdiv (a b : Q) : result Q :=
  if Qeq_bool b 0 then Raise ZeroDivisionError else Ok (a / b).

(** [t[i]] on a tuple. *)
Definition item {A : Type} (t : list A) (i : nat) : result A :=
  match nth_error t i with
  | Some a => Ok a
  | None => Raise IndexError
  end.

(** ** Data model *)

Record Horse : Type := mkHorse {
  id : Z;
  name : String.string;
  win_probability : float;
  place_probability : float;
  show_probability : float;
  odds : float;
  jockey : String.string;
  trainer : String.string;
  form_rating : float;
  speed_rating : float;
  class_rating : float
}.

(** The [==] a dataclass generates: field by field. *)
Definition Horse_eqb (a b : Horse) : bool :=
  Z.eqb (id a) (id b) && String.eqb (name a) (name b)
  && Qeq_bool (win_probability a) (win_probability b)
  && Qeq_bool (place_probability a) (place_probability b)
  && Qeq_bool (show_probability a) (show_probability b)
  && Qeq_bool (odds a) (odds b)
  && String.eqb (jockey a) (jockey b) && String.eqb (trainer a) (trainer b)
  && Qeq_bool (form_rating a) (form_rating b)
  && Qeq_bool (speed_rating a) (speed_rating b)
  && Qeq_bool (class_rating a) (class_rating b).

Inductive BetType : Type := exacta | trifecta | superfecta.

Record ExoticBet : Type := mkExoticBet {
  bet_type : BetType;
  combination : list Z;
  probability : float;
  payout_odds : float;
  expected_value : float;
  kelly_fraction : float;
  confidence_score : float
}.

(** A tuple of horse identifiers, the key of the probability dictionaries. *)
Abbreviation tuple := (list Z).

Fixpoint tuple_eqb (a b : tuple) : bool :=
  match a, b with
  | [], [] => true
  | x :: a', y :: b' => Z.eqb x y && tuple_eqb a' b'
  | _, _ => false
  end.

(** ** Python dictionaries, in insertion order *)

Module PyDict.
Section Dict.
Context {V : Type}.

Definition t := list (tuple * V).

Definition empty : t := [].

(** [d[k] = v]: overwrite in place when the key is there, append when
    it is not. *)
Fixpoint set (k : tuple) (v : V) (d : t) : t :=
  match d with
  | [] => [(k, v)]
  | (k', v') :: r =>
      if tuple_eqb k k' then (k', v) :: r else (k', v') :: set k v r
  end.

Fixpoint get (k : tuple) (d : t) : option V :=
  match d with
  | [] => None
  | (k', v') :: r => if tuple_eqb k k' then Some v' else get k r
  end.

Definition keys (d : t) : list tuple := map fst d.
Definition items (d : t) : list (tuple * V) := d.
Definition len (d : t) : nat := length d.
End Dict.
Arguments t : clear implicits.
End PyDict.

(** ** [itertools.permutations] and stable sorting *)

(** Every way to take one element out of a list: the element and the rest,
    in the order of the positions. *)
Fixpoint selections {A : Type} (l : list A) : list (A * list A) :=
  match l with
  | [] => []
  | x :: t => (x, t) :: map (fun p => (fst p, x :: snd p)) (selections t)
  end.

(** [itertools.permutations(l, r)]: the [r]-length tuples of elements at
    distinct positions, in lexicographic order of the positions. *)
Fixpoint permutations {A : Type} (l : list A) (r : nat) : list (list A) :=
  match r with
  | O => [[]]
  | S r' =>
      flat_map (fun p => map (cons (fst p)) (permutations (snd p) r'))
               (selections l)
  end.

Section Sorting.
Context {A : Type} (key : A -> Q).

(** [x] goes in front of the first element whose key is not larger. *)
Fixpoint insert_desc (x : A) (l : list A) : list A :=
  match l with
  | [] => [x]
  | y :: r => if Qltb (key x) (key y) then y :: insert_desc x r else x :: l
  end.

(** [sorted(l, key=key, reverse=True)] *)
Fixpoint sorted_desc (l : list A) : list A :=
  match l with
  | [] => []
  | x :: t => insert_desc x (sorted_desc t)
  end.

(** The order of a list sorted largest first: the key of [b], which comes
    later, is not larger than that of [a]. *)
Definition not_above (a b : A) : Prop := key b <= key a.
End Sorting.

(** [l[:n]] *)
Definition py_prefix {A : Type} (n : Z) (l : list A) : list A :=
  if (0 <=? n)%Z then firstn (Z.to_nat n) l
  else firstn (length l - Z.to_nat (- n)) l.

(** ** ProbabilityCalibrator *)

Definition model_weight : Q := 7 # 10.
Definition market_weight : Q := 3 # 10.
Definition default_implied : Q := 1 # 100.
Definition epsilon : Q := 1 # 10000000000.

(** [1 / horse.odds if horse.odds > 0 else 0.01] *)
Definition implied_prob (h : Horse) : result Q :=
  if Qltb 0 (odds h) then fdiv 1 (odds h) else Ok default_implied.

Definition _estimate_place_probability (win_prob : Q) (field_size : nat) : Q :=
  if (field_size <=? 4)%nat then py_min (win_prob * (25 # 10)) (95 # 100)
  else if (field_size <=? 8)%nat then py_min (win_prob * (22 # 10)) (90 # 100)
  else py_min (win_prob * (18 # 10)) (85 # 100).

Definition _estimate_show_probability (win_prob : Q) (field_size : nat) : Q :=
  if (field_size <=? 5)%nat then py_min (win_prob * 3) (98 # 100)
  else if (field_size <=? 10)%nat then py_min (win_prob * (25 # 10)) (95 # 100)
  else py_min (win_prob * 2) (90 # 100).

(** The body of the second loop of [calibrate_win_probabilities]: the new
    horse built from [horse] and its normalized market probability. *)
Definition calibrated_horse (field_size : nat) (horse : Horse) (market_prob : Q)
  : Horse :=
  let model_prob := win_probability horse in
  let calibrated_prob := model_weight * model_prob + market_weight * market_prob in
  mkHorse (id horse) (name horse) calibrated_prob
          (_estimate_place_probability calibrated_prob field_size)
          (_estimate_show_probability calibrated_prob field_size)
          (odds horse) (jockey horse) (trainer horse)
          (form_rating horse) (speed_rating horse) (class_rating horse).

(** The first loop and the normalization of [calibrate_win_probabilities]. *)
Definition normalized_implied (horses : list Horse) : result (list Q) :=
  implied_probs <- mapM implied_prob horses ;;
  let total_implied := py_sum implied_probs in
  mapM (fun prob => fdiv prob total_implied) implied_probs.

Definition calibrate_win_probabilities (horses : list Horse) : result (list Horse) :=
  normalized_probs <- normalized_implied horses ;;
  Ok (map (fun hp => calibrated_horse (length horses) (fst hp) (snd hp))
          (combine horses normalized_probs)).

(** [next(h for h in horses if h.id == horse_id)] *)
Definition next_horse (horses : list Horse) (horse_id : Z) : result Horse :=
  match find (fun h => Z.eqb (id h) horse_id) horses with
  | Some h => Ok h
  | None => Raise StopIteration
  end.

(** [l.remove(x)]: drops the first element equal to [x]. *)
Fixpoint list_remove (x : Horse) (l : list Horse) : result (list Horse) :=
  match l with
  | [] => Raise ValueError
  | y :: r =>
      if Horse_eqb y x then Ok r
      else r' <- list_remove x r ;; Ok (y :: r')
  end.

(** The loop [for perm in perms: d[perm] = f(perm)] that fills a dictionary. *)
Fixpoint fill (f : tuple -> result Q) (perms : list tuple) (d : PyDict.t Q)
  : result (PyDict.t Q) :=
  match perms with
  | [] => Ok d
  | perm :: rest => v <- f perm ;; fill f rest (PyDict.set perm v d)
  end.

(** The body of the loop of [_calculate_exacta_probabilities]. *)
Definition exacta_joint (horses : list Horse) (perm : tuple) : result Q :=
  id1 <- item perm 0 ;;
  horse1 <- next_horse horses id1 ;;
  id2 <- item perm 1 ;;
  horse2 <- next_horse horses id2 ;;
  let prob_1st := win_probability horse1 in
  prob_2nd_given_1st <-
    fdiv (win_probability horse2) (1 - win_probability horse1 + epsilon) ;;
  Ok (prob_1st * prob_2nd_given_1st).

Definition _calculate_exacta_probabilities (horses : list Horse)
  : result (PyDict.t Q) :=
  fill (exacta_joint horses) (permutations (map id horses) 2) PyDict.empty.

(** [sorted(horses, key=lambda h: h.win_probability, reverse=True)[:n]] *)
Definition top_horses (n : nat) (horses : list Horse) : list Horse :=
  firstn n (sorted_desc win_probability horses).

(** The body of the loop of [_calculate_trifecta_probabilities]. *)
Definition trifecta_joint (horses : list Horse) (perm : tuple) : result Q :=
  id1 <- item perm 0 ;;
  horse1 <- next_horse horses id1 ;;
  id2 <- item perm 1 ;;
  horse2 <- next_horse horses id2 ;;
  id3 <- item perm 2 ;;
  horse3 <- next_horse horses id3 ;;
  let prob_1st := win_probability horse1 in
  prob_2nd_given_1st <-
    fdiv (win_probability horse2) (1 - win_probability horse1 + epsilon) ;;
  let remaining_prob := 1 - win_probability horse1 - win_probability horse2 in
  prob_3rd_given_12 <-
    fdiv (win_probability horse3) (remaining_prob + epsilon) ;;
  Ok (prob_1st * prob_2nd_given_1st * prob_3rd_given_12).

Definition _calculate_trifecta_probabilities (horses : list Horse)
  : result (PyDict.t Q) :=
  fill (trifecta_joint horses)
       (permutations (map id (top_horses 6 horses)) 3) PyDict.empty.

(** The inner loop of [_calculate_superfecta_probabilities], from the
    state [(prob, remaining_horses)]. *)
Fixpoint superfecta_loop (perm : tuple) (prob : Q) (remaining_horses : list Horse)
  : result Q :=
  match perm with
  | [] => Ok prob
  | horse_id :: rest =>
      horse <- next_horse remaining_horses horse_id ;;
      position_prob <-
        fdiv (win_probability horse)
             (py_sum (map win_probability remaining_horses)) ;;
      remaining_horses' <- list_remove horse remaining_horses ;;
      superfecta_loop rest (prob * position_prob) remaining_horses'
  end.

Definition superfecta_joint (horses : list Horse) (perm : tuple) : result Q :=
  superfecta_loop perm 1 horses.

Definition _calculate_superfecta_probabilities (horses : list Horse)
  : result (PyDict.t Q) :=
  fill (superfecta_joint horses)
       (permutations (map id (top_horses 5 horses)) 4) PyDict.empty.

(** ** ExoticCombinationGenerator *)

Definition min_probability_threshold : Q := 1 # 1000.

(** [np.prod([horse.odds for each id of the combination])] with the lookups
    of the payout estimators. *)
Definition combination_odds (combination : tuple) (horses : list Horse)
  : result (list Q) :=
  mapM (fun horse_id => horse <- next_horse horses horse_id ;; Ok (odds horse))
       combination.

Definition _estimate_exacta_payout (combination : tuple) (horses : list Horse)
  : result Q :=
  id1 <- item combination 0 ;;
  horse1 <- next_horse horses id1 ;;
  id2 <- item combination 1 ;;
  horse2 <- next_horse horses id2 ;;
  let base_payout := odds horse1 * odds horse2 * (8 # 10) in
  Ok (py_max base_payout 2).

Definition _estimate_trifecta_payout (combination : tuple) (horses : list Horse)
  : result Q :=
  payouts <- combination_odds combination horses ;;
  let base_payout := np_prod payouts * (75 # 100) in
  Ok (py_max base_payout 5).

Definition _estimate_superfecta_payout (combination : tuple) (horses : list Horse)
  : result Q :=
  payouts <- combination_odds combination horses ;;
  let base_payout := np_prod payouts * (7 # 10) in
  Ok (py_max base_payout 10).

Definition _calculate_kelly_fraction (probability odds : Q) : result Q :=
  if Qle_bool odds 1 then Ok 0
  else
    let b := odds - 1 in
    let p := probability in
    let q := 1 - p in
    kelly <- fdiv (b * p - q) b ;;
    Ok (py_max 0 (py_min kelly (25 # 100))).

Definition _calculate_confidence_score
  (combination : tuple) (horses : list Horse) (probability : Q) : result Q :=
  combo_horses <- mapM (next_horse horses) combination ;;
  let avg_form := np_mean (map form_rating combo_horses) in
  let avg_speed := np_mean (map speed_rating combo_horses) in
  let prob_factor := py_min (probability * 100) 10 / 10 in
  let avg_class := np_mean (map class_rating combo_horses) in
  let confidence :=
    ((3 # 10) * avg_form + (25 # 100) * avg_speed
     + (25 # 100) * prob_factor + (2 # 10) * avg_class) / 100 in
  Ok (py_min (py_max confidence 0) 1).

(** The loop over [probs.items()] shared by the three generators: entries
    under the threshold are skipped, the others become bets, in order. *)
Fixpoint make_bets (ty : BetType)
  (payout : tuple -> list Horse -> result Q)
  (horses : list Horse) (entries : list (tuple * Q)) : result (list ExoticBet) :=
  match entries with
  | [] => Ok []
  | (combination, probability) :: rest =>
      if Qltb probability min_probability_threshold then
        make_bets ty payout horses rest
      else
        payout_odds <- payout combination horses ;;
        let expected_value := probability * payout_odds - 1 in
        kelly_fraction <- _calculate_kelly_fraction probability payout_odds ;;
        confidence_score <-
          _calculate_confidence_score combination horses probability ;;
        bets <- make_bets ty payout horses rest ;;
        Ok (mkExoticBet ty combination probability payout_odds expected_value
                        kelly_fraction confidence_score :: bets)
  end.

Definition generate_exacta_combinations
  (horses : list Horse) (max_combinations : Z) : result (list ExoticBet) :=
  exacta_probs <- _calculate_exacta_probabilities horses ;;
  exacta_bets <-
    make_bets exacta _estimate_exacta_payout horses (PyDict.items exacta_probs) ;;
  Ok (py_prefix max_combinations (sorted_desc expected_value exacta_bets)).

Definition generate_trifecta_combinations
  (horses : list Horse) (max_combinations : Z) : result (list ExoticBet) :=
  trifecta_probs <- _calculate_trifecta_probabilities horses ;;
  trifecta_bets <-
    make_bets trifecta _estimate_trifecta_payout horses
              (PyDict.items trifecta_probs) ;;
  Ok (py_prefix max_combinations (sorted_desc expected_value trifecta_bets)).

Definition generate_superfecta_combinations
  (horses : list Horse) (max_combinations : Z) : result (list ExoticBet) :=
  superfecta_probs <- _calculate_superfecta_probabilities horses ;;
  superfecta_bets <-
    make_bets superfecta _estimate_superfecta_payout horses
              (PyDict.items superfecta_probs) ;;
  Ok (py_prefix max_combinations (sorted_desc expected_value superfecta_bets)).

(** ** EVSignalGenerator *)

Inductive RiskLevel : Type := LOW | MEDIUM | HIGH | VERY_HIGH.

(** The dictionary a signal is, with its fixed keys as fields. *)
Record Signal : Type := mkSignal {
  timestamp : Z;
  sig_bet_type : BetType;
  sig_combination : list Z;
  sig_probability : float;
  sig_expected_value : float;
  sig_kelly_fraction : float;
  sig_confidence_score : float;
  signal_strength : float;
  risk_level : RiskLevel;
  recommended_stake : float
}.

Record EVSignalGenerator : Type := mkEVSignalGenerator {
  min_ev_threshold : float;
  signal_history : list Signal
}.

(** [EVSignalGenerator()] *)
Definition new_signal_generator : EVSignalGenerator :=
  mkEVSignalGenerator (5 # 100) [].

Definition _calculate_signal_strength (bet : ExoticBet) : Q :=
  let ev_component := py_min (expected_value bet * 2) 1 in
  let confidence_component := confidence_score bet in
  let kelly_component := py_min (kelly_fraction bet * 4) 1 in
  (4 # 10) * ev_component + (35 # 100) * confidence_component
  + (25 # 100) * kelly_component.

Definition _assess_risk_level (bet : ExoticBet) : RiskLevel :=
  if Qltb (1 # 10) (probability bet) then LOW
  else if Qltb (5 # 100) (probability bet) then MEDIUM
  else if Qltb (1 # 100) (probability bet) then HIGH
  else VERY_HIGH.

Definition _calculate_recommended_stake (bet : ExoticBet) (bankroll : Q) : Q :=
  bankroll * kelly_fraction bet.

(** The dictionary built for one bet; [now] is what [datetime.now()]
    answers when it is built. *)
Definition signal_of (now : Z) (bet : ExoticBet) : Signal :=
  mkSignal now (bet_type bet) (combination bet) (probability bet)
           (expected_value bet) (kelly_fraction bet) (confidence_score bet)
           (_calculate_signal_strength bet) (_assess_risk_level bet)
           (_calculate_recommended_stake bet 1000).

(** The loop that builds the signals; the [i]-th one reads the clock at
    [clock i]. *)
Fixpoint build_signals (clock : nat -> Z) (i : nat) (bets : list ExoticBet)
  : list Signal :=
  match bets with
  | [] => []
  | bet :: rest => signal_of (clock i) bet :: build_signals clock (S i) rest
  end.

(** [generate_ev_signals]: the signals returned and the generator with its
    history extended. *)
Definition generate_ev_signals
  (clock : nat -> Z) (self : EVSignalGenerator) (exotic_bets : list ExoticBet)
  : list Signal * EVSignalGenerator :=
  let positive_ev_bets :=
    filter (fun bet => Qltb (min_ev_threshold self) (expected_value bet))
           exotic_bets in
  let signals :=
    sorted_desc signal_strength (build_signals clock 0 positive_ev_bets) in
  (signals,
   mkEVSignalGenerator (min_ev_threshold self) (signal_history self ++ signals)).

(** ** ExoticBetOptimizer *)

(** [optimize_exotic_bets] up to the signals: all the bets generated and the
    signals, with the generator's new state. *)
Definition optimize_exotic_bets
  (clock : nat -> Z) (signal_generator : EVSignalGenerator) (horses : list Horse)
  : result (list ExoticBet * list Signal * EVSignalGenerator) :=
  calibrated_horses <- calibrate_win_probabilities horses ;;
  exacta_bets <- generate_exacta_combinations calibrated_horses 20 ;;
  trifecta_bets <- generate_trifecta_combinations calibrated_horses 15 ;;
  superfecta_bets <- generate_superfecta_combinations calibrated_horses 10 ;;
  let all_exotic_bets := exacta_bets ++ trifecta_bets ++ superfecta_bets in
  let '(ev_signals, signal_generator') :=
    generate_ev_signals clock signal_generator all_exotic_bets in
  Ok (all_exotic_bets, ev_signals, signal_generator').

(** [create_sample_horses] *)
Definition create_sample_horses : list Horse :=
  let s := String.EmptyString in
  [ mkHorse 1 s (25 # 100) (45 # 100) (65 # 100) 4 s s 85 92 88;
    mkHorse 2 s (20 # 100) (40 # 100) (60 # 100) 5 s s 80 88 85;
    mkHorse 3 s (18 # 100) (38 # 100) (58 # 100) (55 # 10) s s 82 90 86;
    mkHorse 4 s (15 # 100) (35 # 100) (55 # 100) (65 # 10) s s 78 85 82;
    mkHorse 5 s (12 # 100) (30 # 100) (50 # 100) 8 s s 75 82 79;
    mkHorse 6 s (10 # 100) (25 # 100) (45 # 100) 10 s s 72 78 76 ].

(** ** Reference formulas, in the words of the specification *)


(** The market-implied probability of a horse: [1/odds], or 0.01 when the
    odds are not positive. *)
Definition implied (h : Horse) : Q :=
  if Qltb 0 (odds h) then 1 / odds h else 1 # 100.

(** The implied probability normalized over the field. *)
Definition market_share (horses : list Horse) (h : Horse) : Q :=
  implied h / py_sum (map implied horses).

(** The number of [r]-tuples drawn from [n] elements: n (n-1) ... (n-r+1). *)
Fixpoint falling (n r : nat) : nat :=
  match r with
  | O => 1
  | S r' => n * falling (n - 1) r'
  end.

(** A signal is a signal for a bet when it carries the bet's data. *)
Definition signal_for (s : Signal) (bet : ExoticBet) : Prop :=
  sig_bet_type s = bet_type bet /\
  sig_combination s = combination bet /\
  sig_probability s = probability bet /\
  sig_expected_value s = expected_value bet /\
  sig_kelly_fraction s = kelly_fraction bet /\
  sig_confidence_score s = confidence_score bet.




(** A horse with the given identifier, win probability and odds, and the
    default ratings. *)
Definition plain_horse (i : Z) (win odds : Q) : Horse :=
  mkHorse i String.EmptyString win 0 0 odds String.EmptyString
          String.EmptyString 75 80 75.

(** The input a race has to satisfy: probabilities within [0,1], positive
    odds, identifiers pairwise distinct. *)
Definition valid_race (horses : list Horse) : Prop :=
  Forall (fun h => 0 <= win_probability h <= 1 /\ 0 < odds h) horses /\
  NoDup (map id horses).

(** Concrete races used below. *)

(** Two horses the model is sure of, at even odds. *)
Definition two_favourites : list Horse :=
  [plain_horse 1 1 2; plain_horse 2 1 2].

(** A certain winner, a horse at 1e-10 and one at 1/2. *)
Definition certain_winner_field : list Horse :=
  [plain_horse 1 1 2; plain_horse 2 epsilon 2; plain_horse 3 (1 # 2) 2].

(** Four horses without any chance. *)
Definition no_hopers : list Horse :=
  [plain_horse 1 0 2; plain_horse 2 0 2; plain_horse 3 0 2; plain_horse 4 0 2].

(** A field of four. *)
Definition small_field : list Horse :=
  [plain_horse 1 (4 # 10) 2; plain_horse 2 (3 # 10) 3;
   plain_horse 3 (2 # 10) 4; plain_horse 4 (1 # 10) 5].

(** Three horses, the first and the last tied. *)
Definition tie_field : list Horse :=
  [plain_horse 1 (2 # 10) 5; plain_horse 2 (3 # 10) 3; plain_horse 3 (2 # 10) 5].

(** ** The rest of the module *)

(** [calculate_joint_probabilities]: the three mappings, computed in the
    order of the dictionary literal. *)
Definition calculate_joint_probabilities (horses : list Horse)
  : result (PyDict.t Q * PyDict.t Q * PyDict.t Q) :=
  exacta_probs <- _calculate_exacta_probabilities horses ;;
  trifecta_probs <- _calculate_trifecta_probabilities horses ;;
  superfecta_probs <- _calculate_superfecta_probabilities horses ;;
  Ok (exacta_probs, trifecta_probs, superfecta_probs).

(** [get_top_signals]: the [n] strongest signals of the history. *)
Definition get_top_signals (self : EVSignalGenerator) (n : Z) : list Signal :=
  py_prefix n (sorted_desc signal_strength (signal_history self)).

(** [np.max(xs)]: numpy raises [ValueError] on an empty list. *)
Definition np_max (xs : list Q) : result Q :=
  match xs with
  | [] => Raise ValueError
  | x :: t => Ok (fold_left (fun m y => if Qltb m y then y else m) t x)
  end.

(** The dictionary of summary statistics, with its fixed keys as fields. *)
Record SummaryStats : Type := mkSummaryStats {
  total_combinations_analyzed : nat;
  profitable_opportunities : nat;
  profitability_rate : float;
  average_expected_value : float;
  max_expected_value : float;
  total_kelly_allocation : float
}.

(** [_calculate_summary_stats]: [None] is the empty dictionary returned
    when there is no bet. *)
Definition _calculate_summary_stats
  (all_bets : list ExoticBet) (signals : list Signal)
  : result (option SummaryStats) :=
  match all_bets with
  | [] => Ok None
  | _ :: _ =>
      let expected_values := map expected_value all_bets in
      rate <- fdiv (inject_Z (Z.of_nat (length signals)))
                   (inject_Z (Z.of_nat (length all_bets))) ;;
      max_ev <- np_max expected_values ;;
      Ok (Some (mkSummaryStats
                  (length all_bets) (length signals) rate
                  (np_mean expected_values) max_ev
                  (py_sum (map kelly_fraction
                               (filter (fun bet => Qltb 0 (expected_value bet))
                                       all_bets)))))
  end.

(** An entry of the list ['calibrated_horses'] of the report. *)
Record CalibratedEntry : Type := mkCalibratedEntry {
  entry_id : Z;
  entry_name : String.string;
  calibrated_win_prob : float;
  place_prob : float;
  show_prob : float
}.

(** The dictionary [results] of [optimize_exotic_bets], with its fixed keys
    as fields. *)
Record Report : Type := mkReport {
  report_timestamp : Z;
  total_horses : nat;
  calibrated_horses : list CalibratedEntry;
  exacta_count : nat;
  trifecta_count : nat;
  superfecta_count : nat;
  profitable_signals : nat;
  top_opportunities : list Signal;
  summary_stats : option SummaryStats
}.

(** [optimize_exotic_bets] with the report it compiles.  The clock is read
    once for each signal and then once for the report. *)
Definition optimize_exotic_bets_results
  (clock : nat -> Z) (signal_generator : EVSignalGenerator) (horses : list Horse)
  : result (Report * EVSignalGenerator) :=
  calibrated <- calibrate_win_probabilities horses ;;
  exacta_bets <- generate_exacta_combinations calibrated 20 ;;
  trifecta_bets <- generate_trifecta_combinations calibrated 15 ;;
  superfecta_bets <- generate_superfecta_combinations calibrated 10 ;;
  let all_exotic_bets := exacta_bets ++ trifecta_bets ++ superfecta_bets in
  let '(ev_signals, signal_generator') :=
    generate_ev_signals clock signal_generator all_exotic_bets in
  stats <- _calculate_summary_stats all_exotic_bets ev_signals ;;
  Ok (mkReport (clock (length ev_signals)) (length horses)
               (map (fun h => mkCalibratedEntry (id h) (name h)
                                (win_probability h) (place_probability h)
                                (show_probability h))
                    calibrated)
               (length exacta_bets) (length trifecta_bets)
               (length superfecta_bets) (length ev_signals)
               (py_prefix 10 ev_signals) stats,
      signal_generator').

(** The three probability computations and the three generators, by bet
    type, with the constants of each type. *)
Definition joint_probabilities (ty : BetType) (horses : list Horse)
  : result (PyDict.t Q) :=
  match ty with
  | exacta => _calculate_exacta_probabilities horses
  | trifecta => _calculate_trifecta_probabilities horses
  | superfecta => _calculate_superfecta_probabilities horses
  end.

Definition generate_combinations
  (ty : BetType) (horses : list Horse) (max_combinations : Z)
  : result (list ExoticBet) :=
  match ty with
  | exacta => generate_exacta_combinations horses max_combinations
  | trifecta => generate_trifecta_combinations horses max_combinations
  | superfecta => generate_superfecta_combinations horses max_combinations
  end.

Definition estimate_payout (ty : BetType) : tuple -> list Horse -> result Q :=
  match ty with
  | exacta => _estimate_exacta_payout
  | trifecta => _estimate_trifecta_payout
  | superfecta => _estimate_superfecta_payout
  end.

(** The number of horses of a bet. *)
Definition arity (ty : BetType) : nat :=
  match ty with exacta => 2 | trifecta => 3 | superfecta => 4 end.

(** The size of the candidate pool (the exacta takes the whole field). *)
Definition pool_of (ty : BetType) (horses : list Horse) : list Horse :=
  match ty with
  | exacta => horses
  | trifecta => top_horses 6 horses
  | superfecta => top_horses 5 horses
  end.

(** The floor of the payout estimate. *)
Definition min_payout (ty : BetType) : Q :=
  match ty with exacta => 2 | trifecta => 5 | superfecta => 10 end.

(** The share of the pool that is paid out. *)
Definition retention (ty : BetType) : Q :=
  match ty with exacta => 8 # 10 | trifecta => 75 # 100 | superfecta => 7 # 10 end.



(** * Properties *)

(** Bounds between literals. *)
Ltac concrete_bound := unfold Qle, Qlt; simpl; lia.

(** ** Comparisons, division and sums *)

Lemma Qltb_lt (a b : Q) : Qltb a b = true <-> a < b.
Proof.
  unfold Qltb. rewrite negb_true_iff. split; intro H.
  - apply Qnot_le_lt. intro L. apply Qle_bool_iff in L. congruence.
  - destruct (Qle_bool b a) eqn:E; [|reflexivity].
    apply Qle_bool_iff in E. exfalso. apply (Qlt_not_le _ _ H E).
Qed.

Lemma Qltb_ge (a b : Q) : Qltb a b = false <-> b <= a.
Proof.
  unfold Qltb. rewrite negb_false_iff. apply Qle_bool_iff.
Qed.



Lemma fdiv_ok (a b : Q) : ~ b == 0 -> fdiv a b = Ok (a / b).
Proof.
  intro H. unfold fdiv. destruct (Qeq_bool b 0) eqn:E; [|reflexivity].
  apply Qeq_bool_iff in E. contradiction.
Qed.

Lemma fdiv_zero (a b : Q) : b == 0 -> fdiv a b = Raise ZeroDivisionError.
Proof.
  intro H. unfold fdiv. now rewrite (Qeq_eq_bool _ _ H).
Qed.

Lemma fdiv_inv (a b v : Q) : fdiv a b = Ok v -> ~ b == 0 /\ v = a / b.
Proof.
  unfold fdiv. destruct (Qeq_bool b 0) eqn:E; [discriminate|].
  intro H. injection H as <-. split; [|reflexivity].
  now apply Qeq_bool_neq.
Qed.

Lemma fold_left_Qplus_compat (l : list Q) (a b : Q) :
  a == b -> fold_left Qplus l a == fold_left Qplus l b.
Proof.
  revert a b. induction l as [|x l IH]; intros a b E; simpl.
  - exact E.
  - apply IH. now rewrite E.
Qed.

Lemma fold_left_Qplus_shift (l : list Q) (a : Q) :
  fold_left Qplus l a == a + py_sum l.
Proof.
  unfold py_sum. revert a. induction l as [|x l IH]; intro a; simpl.
  - ring.
  - rewrite (IH (a + x)), (IH (0 + x)). ring.
Qed.

Lemma py_sum_cons (x : Q) (l : list Q) : py_sum (x :: l) == x + py_sum l.
Proof.
  unfold py_sum at 1. simpl. rewrite fold_left_Qplus_shift. ring.
Qed.

Lemma py_sum_nonneg (l : list Q) : Forall (fun x => 0 <= x) l -> 0 <= py_sum l.
Proof.
  induction 1 as [|x l Hx _ IH].
  - unfold py_sum; simpl. lra.
  - rewrite py_sum_cons. lra.
Qed.

Lemma py_sum_pos (l : list Q) :
  l <> [] -> Forall (fun x => 0 < x) l -> 0 < py_sum l.
Proof.
  intros Hne H. destruct H as [|x l Hx Hl]; [congruence|].
  rewrite py_sum_cons.
  assert (0 <= py_sum l).
  { apply py_sum_nonneg. eapply Forall_impl; [|exact Hl].
    intros; now apply Qlt_le_weak. }
  lra.
Qed.

Lemma py_sum_scale (l : list Q) (t : Q) :
  py_sum (map (fun x => x / t) l) == py_sum l / t.
Proof.
  induction l as [|x l IH]; simpl.
  - unfold py_sum; simpl. unfold Qdiv. ring.
  - rewrite !py_sum_cons, IH. unfold Qdiv. ring.
Qed.

(** ** Kelly fraction *)

Lemma kelly_above_one (p payout : Q) :
  1 < payout ->
  _calculate_kelly_fraction p payout =
  Ok (py_max 0 (py_min (((payout - 1) * p - (1 - p)) / (payout - 1)) (25 # 100))).
Proof.
  intro H. unfold _calculate_kelly_fraction.
  destruct (Qle_bool payout 1) eqn:E.
  - apply Qle_bool_iff in E. lra.
  - rewrite fdiv_ok by lra. reflexivity.
Qed.

Lemma kelly_at_most_one (p payout : Q) :
  payout <= 1 -> _calculate_kelly_fraction p payout = Ok 0.
Proof.
  intro H. unfold _calculate_kelly_fraction.
  now rewrite (proj2 (Qle_bool_iff _ _) H).
Qed.





(** ** Calibration *)

Lemma implied_pos (h : Horse) : 0 < implied h.
Proof.
  unfold implied. destruct (Qltb 0 (odds h)) eqn:E.
  - apply Qltb_lt in E. unfold Qdiv. rewrite Qmult_1_l.
    now apply Qinv_lt_0_compat.
  - reflexivity.
Qed.

Lemma implied_prob_ok (h : Horse) : implied_prob h = Ok (implied h).
Proof.
  unfold implied_prob, implied. destruct (Qltb 0 (odds h)) eqn:E.
  - apply Qltb_lt in E. apply fdiv_ok. lra.
  - reflexivity.
Qed.

Lemma mapM_ok {A B : Type} (f : A -> result B) (g : A -> B) (l : list A) :
  (forall a, In a l -> f a = Ok (g a)) -> mapM f l = Ok (map g l).
Proof.
  induction l as [|a l IH]; intro H; simpl.
  - reflexivity.
  - rewrite (H a (or_introl eq_refl)). simpl.
    rewrite IH by (intros; apply H; now right). reflexivity.
Qed.

Lemma total_implied_pos (horses : list Horse) :
  horses <> [] -> 0 < py_sum (map implied horses).
Proof.
  intro Hne. apply py_sum_pos.
  - destruct horses; [congruence|discriminate].
  - apply Forall_forall. intros x Hx. apply in_map_iff in Hx.
    destruct Hx as (h & <- & _). apply implied_pos.
Qed.

Lemma normalized_implied_ok (horses : list Horse) :
  normalized_implied horses = Ok (map (market_share horses) horses).
Proof.
  unfold normalized_implied.
  rewrite (mapM_ok implied_prob implied) by (intros; apply implied_prob_ok).
  simpl. destruct horses as [|h t] eqn:E; [reflexivity|]. rewrite <- E.
  rewrite (mapM_ok _ (fun prob => prob / py_sum (map implied horses))).
  - now rewrite map_map.
  - intros a _. apply fdiv_ok.
    assert (0 < py_sum (map implied horses))
      by (apply total_implied_pos; subst; discriminate).
    lra.
Qed.

Lemma map_combine_self {A B C : Type} (f : A -> B) (g : A * B -> C) (l : list A) :
  map g (combine l (map f l)) = map (fun a => g (a, f a)) l.
Proof.
  induction l as [|a l IH]; simpl; [reflexivity|now rewrite IH].
Qed.

Lemma calibrate_ok (horses : list Horse) :
  calibrate_win_probabilities horses =
  Ok (map (fun h => calibrated_horse (length horses) h (market_share horses h))
          horses).
Proof.
  unfold calibrate_win_probabilities. rewrite normalized_implied_ok. simpl.
  now rewrite map_combine_self.
Qed.

Lemma market_share_sum (horses : list Horse) :
  horses <> [] -> py_sum (map (market_share horses) horses) == 1.
Proof.
  intro Hne. pose proof (total_implied_pos horses Hne) as Hpos.
  unfold market_share.
  rewrite <- (map_map implied (fun x => x / py_sum (map implied horses))).
  rewrite py_sum_scale. field. lra.
Qed.

(** C3: for a non-empty field, the implied probability of a horse is 1/odds
    when its odds are positive and 0.01 otherwise, the implied probabilities
    normalized over the field sum to 1, and the calibration returns, horse by
    horse, 0.7 times the model probability plus 0.3 times the normalized
    implied probability. *)
Theorem calibrated_win_probability_blend (horses : list Horse) :
  horses <> [] ->
  (forall h, (0 < odds h -> implied h == 1 / odds h) /\
             (odds h <= 0 -> implied h == 1 # 100)) /\
  py_sum (map (market_share horses) horses) == 1 /\
  exists calibrated,
    calibrate_win_probabilities horses = Ok calibrated /\
    length calibrated = length horses /\
    forall i h, nth_error horses i = Some h ->
      exists c, nth_error calibrated i = Some c /\ id c = id h /\
        win_probability c ==
        (7 # 10) * win_probability h + (3 # 10) * market_share horses h.
Proof.
  intro Hne. split; [|split].
  - intro h. unfold implied. split; intro H.
    + now rewrite (proj2 (Qltb_lt _ _) H).
    + now rewrite (proj2 (Qltb_ge _ _) H).
  - now apply market_share_sum.
  - eexists. split; [apply calibrate_ok|]. split; [apply length_map|].
    intros i h Hi. eexists. split.
    + rewrite nth_error_map, Hi. reflexivity.
    + split; reflexivity.
Qed.

Lemma calibrated_win_probability_blend_witness :
  create_sample_horses <> [] /\
  py_sum (map (market_share create_sample_horses) create_sample_horses) == 1 /\
  exists calibrated,
    calibrate_win_probabilities create_sample_horses = Ok calibrated /\
    length calibrated = 6%nat.
Proof.
  split; [discriminate|].
  destruct (calibrated_win_probability_blend create_sample_horses)
    as (_ & S & c & E & L & _); [discriminate|].
  split; [exact S|]. exists c. split; [exact E|exact L].
Defined.

(** C4, as the claim words it, fails: a win probability of 2 is neither
    clamped nor replaced.  For the one-horse field below the normalized
    implied probability is 1 and the calibrated value is 1.7, which no
    model probability within [0,1] can produce. *)
Lemma calibration_keeps_out_of_range_probability :
  let h := mkHorse 1 String.EmptyString 2 0 0 2 String.EmptyString
                   String.EmptyString 75 80 75 in
  exists c, calibrate_win_probabilities [h] = Ok [c] /\
            market_share [h] h == 1 /\
            win_probability c == 17 # 10 /\
            forall m, 0 <= m <= 1 ->
              ~ win_probability c == (7 # 10) * m + (3 # 10) * market_share [h] h.
Proof.
  intro h. eexists. split; [reflexivity|]. split; [reflexivity|].
  split; [reflexivity|]. intros m Hm.
  change (market_share [h] h) with ((1 / 2) / (0 + 1 / 2)).
  simpl win_probability. intro E.
  assert (E' : (7 # 10) * m + (3 # 10) * (1 / 2 / (0 + 1 / 2)) == (7 # 10) * m + (3 # 10))
    by (field).
  rewrite E' in E. unfold model_weight, market_weight in E.
  assert (E2 : (7 # 10) * 2 + (3 # 10) * (1 / 2 / (0 + 1 / 2)) == 17 # 10) by reflexivity.
  rewrite E2 in E. lra.
Qed.

(** C4 (amended): a horse with non-positive odds is substituted with the
    implied probability 0.01 rather than raising, and calibration returns
    whenever the field has such a horse; a win probability outside [0,1] is
    neither clamped nor replaced but blended as it is: whenever calibration
    returns, each calibrated win probability is 0.7 times the given one plus
    0.3 times the normalized implied probability. *)
Theorem calibration_absorbs_degenerate_odds (horses : list Horse) :
  (forall h, In h horses -> odds h <= 0 -> implied_prob h = Ok (1 # 100)) /\
  ((exists h, In h horses /\ odds h <= 0) ->
   exists calibrated, calibrate_win_probabilities horses = Ok calibrated) /\
  (forall calibrated,
     calibrate_win_probabilities horses = Ok calibrated ->
     forall i h, nth_error horses i = Some h ->
       exists c, nth_error calibrated i = Some c /\
         win_probability c ==
         (7 # 10) * win_probability h + (3 # 10) * market_share horses h).
Proof.
  split; [|split].
  - intros h _ H. unfold implied_prob. now rewrite (proj2 (Qltb_ge _ _) H).
  - intros _. eexists. apply calibrate_ok.
  - intros calibrated E i h Hi. rewrite calibrate_ok in E.
    assert (Hc : calibrated =
                 map (fun h => calibrated_horse (length horses) h
                                 (market_share horses h)) horses)
      by congruence.
    subst calibrated. eexists. split.
    + rewrite nth_error_map, Hi. reflexivity.
    + reflexivity.
Qed.

Lemma calibration_absorbs_degenerate_odds_witness :
  let h := mkHorse 1 String.EmptyString (-3) 0 0 (-2) String.EmptyString
                   String.EmptyString 75 80 75 in
  exists c, calibrate_win_probabilities [h] = Ok [c] /\
            implied_prob h = Ok (1 # 100) /\
            win_probability c == (7 # 10) * (-3) + (3 # 10) * market_share [h] h.
Proof.
  intro h.
  destruct (calibration_absorbs_degenerate_odds [h]) as (I & R & B).
  assert (O : odds h <= 0) by concrete_bound.
  destruct R as (cal & E); [exists h; split; [now left|exact O]|].
  destruct (B cal E 0%nat h eq_refl) as (c & Hc & Hw).
  exists c. split; [|split].
  - rewrite E. destruct cal as [|c' [|? ?]]; try discriminate.
    simpl in Hc. congruence.
  - apply I; [now left|exact O].
  - exact Hw.
Defined.

(** ** Tuples and dictionaries *)

Lemma tuple_eqb_eq (a b : tuple) : tuple_eqb a b = true <-> a = b.
Proof.
  revert b. induction a as [|x a IH]; intros [|y b]; simpl;
    try (split; [discriminate|congruence]).
  - split; reflexivity.
  - rewrite andb_true_iff, Z.eqb_eq, IH. split.
    + intros [-> ->]. reflexivity.
    + intro E. injection E as -> ->. auto.
Qed.

Lemma tuple_eqb_refl (a : tuple) : tuple_eqb a a = true.
Proof. now apply tuple_eqb_eq. Qed.

Lemma tuple_eqb_neq (a b : tuple) : tuple_eqb a b = false <-> a <> b.
Proof.
  rewrite <- tuple_eqb_eq. destruct (tuple_eqb a b); split; congruence.
Qed.

Section DictFacts.
Context {V : Type}.
Implicit Types (d : PyDict.t V) (k : tuple) (v : V).

Lemma get_In_keys k d : PyDict.get k d <> None <-> In k (PyDict.keys d).
Proof.
  induction d as [|[k' v'] d IH]; simpl.
  - split; [congruence|tauto].
  - destruct (tuple_eqb k k') eqn:E.
    + apply tuple_eqb_eq in E. subst. split; [auto|discriminate].
    + apply tuple_eqb_neq in E. rewrite IH. split; [auto|].
      intros [H|H]; [congruence|exact H].
Qed.

Lemma set_fresh k v d :
  ~ In k (PyDict.keys d) -> PyDict.set k v d = d ++ [(k, v)].
Proof.
  induction d as [|[k' v'] d IH]; simpl; intro H; [reflexivity|].
  destruct (tuple_eqb k k') eqn:E.
  - apply tuple_eqb_eq in E. subst. tauto.
  - rewrite IH by tauto. reflexivity.
Qed.

Lemma get_set k k' v d :
  PyDict.get k (PyDict.set k' v d) =
  if tuple_eqb k k' then Some v else PyDict.get k d.
Proof.
  induction d as [|[k0 v0] d IH]; simpl.
  - reflexivity.
  - destruct (tuple_eqb k' k0) eqn:E0; simpl.
    + apply tuple_eqb_eq in E0. subst k0.
      destruct (tuple_eqb k k'); reflexivity.
    + destruct (tuple_eqb k k0) eqn:E1.
      * apply tuple_eqb_eq in E1. subst k0.
        destruct (tuple_eqb k k') eqn:E2; [|reflexivity].
        apply tuple_eqb_eq in E2. subst k'.
        rewrite tuple_eqb_refl in E0. discriminate.
      * exact IH.
Qed.
End DictFacts.

(** What [fill] leaves in the dictionary: whatever was there, or the value
    of [f] at one of the tuples. *)
Lemma fill_get (f : tuple -> result Q) (perms : list tuple) :
  forall d0 d, fill f perms d0 = Ok d ->
  forall k v, PyDict.get k d = Some v ->
    PyDict.get k d0 = Some v \/ (In k perms /\ f k = Ok v).
Proof.
  induction perms as [|p perms IH]; simpl; intros d0 d H k v G.
  - injection H as <-. now left.
  - destruct (f p) as [w|e] eqn:Fp; simpl in H; [|discriminate].
    destruct (IH _ _ H k v G) as [G0|[Hin Fk]].
    + rewrite get_set in G0. destruct (tuple_eqb k p) eqn:E.
      * apply tuple_eqb_eq in E. subst p. injection G0 as ->. right. auto.
      * now left.
    + right. auto.
Qed.

(** When the tuples are new and pairwise distinct, [fill] appends them in
    order, each with its value. *)
Lemma fill_fresh (f : tuple -> result Q) (perms : list tuple) :
  forall d0, NoDup (PyDict.keys d0 ++ perms) ->
  fill f perms d0 = (vs <- mapM f perms ;; Ok (d0 ++ combine perms vs)).
Proof.
  induction perms as [|p perms IH]; simpl; intros d0 N.
  - now rewrite app_nil_r.
  - destruct (f p) as [w|e]; simpl; [|reflexivity].
    rewrite set_fresh.
    + rewrite IH.
      * destruct (mapM f perms); simpl; [|reflexivity].
        now rewrite <- app_assoc.
      * unfold PyDict.keys in *. rewrite map_app. simpl.
        now rewrite <- app_assoc.
    + apply NoDup_remove_2 in N. intro H. apply N. apply in_or_app. now left.
Qed.

Lemma mapM_length {A B : Type} (f : A -> result B) (l : list A) :
  forall bs, mapM f l = Ok bs -> length bs = length l.
Proof.
  induction l as [|a l IH]; simpl; intros bs H.
  - now injection H as <-.
  - destruct (f a); simpl in H; [|discriminate].
    destruct (mapM f l) eqn:E; simpl in H; [|discriminate].
    injection H as <-. simpl. f_equal. now apply IH.
Qed.

Lemma mapM_total {A B : Type} (f : A -> result B) (l : list A) :
  (forall a, In a l -> exists b, f a = Ok b) -> exists bs, mapM f l = Ok bs.
Proof.
  induction l as [|a l IH]; simpl; intro H.
  - now eexists.
  - destruct (H a (or_introl eq_refl)) as (b & ->).
    destruct IH as (bs & ->); [intros; apply H; now right|].
    now eexists.
Qed.

Lemma combine_keys {B : Type} (l : list tuple) (vs : list B) :
  length vs = length l -> map fst (combine l vs) = l.
Proof.
  revert vs. induction l as [|a l IH]; intros [|v vs] H; simpl in *;
    try discriminate; try reflexivity.
  f_equal. apply IH. now injection H.
Qed.

(** ** [itertools.permutations] *)

Section Permutations.
Context {A : Type}.
Implicit Types (l : list A) (x : A).

Lemma selections_In x rest l :
  In (x, rest) (selections l) <->
  exists l1 l2, l = l1 ++ x :: l2 /\ rest = l1 ++ l2.
Proof.
  revert x rest. induction l as [|y l IH]; intros x rest; simpl.
  - split; [tauto|]. intros (l1 & l2 & E & _). now destruct l1.
  - split.
    + intros [E|H].
      * injection E as -> ->. now exists [], rest.
      * apply in_map_iff in H. destruct H as ([x' r'] & E & H).
        simpl in E. injection E as -> <-.
        apply IH in H. destruct H as (l1 & l2 & -> & ->).
        now exists (y :: l1), l2.
    + intros ([|z l1] & l2 & E & ->); simpl in E; injection E as -> ->.
      * now left.
      * right. apply in_map_iff. exists (x, l1 ++ l2). split; [reflexivity|].
        apply IH. now exists l1, l2.
Qed.

Lemma selections_fst l : map fst (selections l) = l.
Proof.
  induction l as [|y l IH]; simpl; [reflexivity|].
  f_equal. rewrite map_map. simpl.
  etransitivity; [|exact IH]. now apply map_ext.
Qed.

Lemma selections_length l : length (selections l) = length l.
Proof. now rewrite <- (selections_fst l) at 2; rewrite length_map. Qed.

Lemma permutations_In_S l r (t : list A) :
  In t (permutations l (S r)) <->
  exists x rest t', In (x, rest) (selections l) /\
                    In t' (permutations rest r) /\ t = x :: t'.
Proof.
  simpl. rewrite in_flat_map. split.
  - intros ([x rest] & Hs & Ht). apply in_map_iff in Ht.
    destruct Ht as (t' & <- & Ht'). now exists x, rest, t'.
  - intros (x & rest & t' & Hs & Ht' & ->). exists (x, rest).
    split; [exact Hs|]. apply in_map_iff. now exists t'.
Qed.

(** A tuple of [permutations l r] has length [r] and is drawn from [l]:
    it uses each position of [l] at most once. *)
Lemma permutations_drawn l r :
  forall t, In t (permutations l r) ->
  length t = r /\ exists rest, Permutation (t ++ rest) l.
Proof.
  revert l. induction r as [|r IH]; intros l t H.
  - simpl in H. destruct H as [<-|[]]. split; [reflexivity|].
    now exists l.
  - apply permutations_In_S in H.
    destruct H as (x & rest & t' & Hs & Ht' & ->).
    apply selections_In in Hs. destruct Hs as (l1 & l2 & -> & ->).
    destruct (IH _ _ Ht') as (L & rest' & P). split; [simpl; congruence|].
    exists rest'. simpl. rewrite <- Permutation_middle.
    now apply perm_skip.
Qed.

Lemma list_sum_const {B : Type} (g : B -> nat) (c : nat) (s : list B) :
  (forall b, In b s -> g b = c) -> list_sum (map g s) = (length s * c)%nat.
Proof.
  induction s as [|b s IH]; simpl; intro H; [reflexivity|].
  rewrite (H b (or_introl eq_refl)), IH by (intros; apply H; now right).
  reflexivity.
Qed.

Lemma permutations_length l r :
  length (permutations l r) = falling (length l) r.
Proof.
  revert l. induction r as [|r IH]; intro l; simpl; [reflexivity|].
  rewrite length_flat_map.
  rewrite (list_sum_const _ (falling (length l - 1) r)).
  - now rewrite selections_length.
  - intros [x rest] Hs. rewrite length_map, IH. simpl.
    apply selections_In in Hs. destruct Hs as (l1 & l2 & -> & ->).
    rewrite !length_app. simpl. f_equal. lia.
Qed.

Lemma permutations_NoDup l r : NoDup l -> NoDup (permutations l r).
Proof.
  revert l. induction r as [|r IH]; intros l N; simpl.
  - constructor; [tauto|constructor].
  - assert (Hs : forall p, In p (selections l) -> NoDup (snd p)).
    { intros [x rest] H. apply selections_In in H.
      destruct H as (l1 & l2 & -> & ->). simpl.
      now apply NoDup_remove_1 in N. }
    assert (Hf : NoDup (map fst (selections l)))
      by now rewrite selections_fst.
    induction (selections l) as [|[x rest] s IHs]; simpl; [constructor|].
    inversion Hf as [|? ? Hx Hf']; subst.
    apply NoDup_app.
    + apply NoDup_map_NoDup_ForallPairs.
      * intros a b _ _ E. now injection E.
      * apply IH. apply (Hs (x, rest)). now left.
    + apply IHs; [intros; apply Hs; now right|exact Hf'].
    + intros t Ht Ht'. apply in_map_iff in Ht. destruct Ht as (t' & <- & _).
      apply in_flat_map in Ht'. destruct Ht' as ([y rest'] & Hy & Ht').
      apply in_map_iff in Ht'. destruct Ht' as (t'' & E & _).
      simpl in E. injection E as -> _.
      apply Hx. change x with (fst (x, rest')). now apply in_map.
Qed.

(** The ordered pairs, when the elements are pairwise distinct. *)
Lemma permutations_2_In l (t : list A) :
  NoDup l ->
  In t (permutations l 2) <->
  exists a b, t = [a; b] /\ In a l /\ In b l /\ a <> b.
Proof.
  intro N. rewrite permutations_In_S. split.
  - intros (a & rest & t' & Hs & Ht' & ->).
    apply permutations_In_S in Ht'.
    destruct Ht' as (b & rest' & t'' & Hs' & Ht'' & ->).
    simpl in Ht''. destruct Ht'' as [<-|[]].
    apply selections_In in Hs. destruct Hs as (l1 & l2 & -> & ->).
    assert (Hb : In b (l1 ++ l2)).
    { apply selections_In in Hs'. destruct Hs' as (m1 & m2 & -> & _).
      apply in_elt. }
    exists a, b. split; [reflexivity|]. split; [apply in_elt|]. split.
    + apply in_app_or in Hb. apply in_or_app. simpl. tauto.
    + intros ->. apply NoDup_remove_2 in N. contradiction.
  - intros (a & b & -> & Ha & Hb & Hab).
    apply in_split in Ha. destruct Ha as (l1 & l2 & ->).
    assert (Hb' : In b (l1 ++ l2)).
    { apply in_app_or in Hb. apply in_or_app. simpl in Hb.
      destruct Hb as [H|[H|H]]; [now left|congruence|now right]. }
    apply in_split in Hb'. destruct Hb' as (m1 & m2 & E).
    exists a, (l1 ++ l2), [b]. split; [|split; [|reflexivity]].
    + apply selections_In. now exists l1, l2.
    + apply permutations_In_S. exists b, (m1 ++ m2), [].
      split; [|split; [now left|reflexivity]].
      apply selections_In. now exists m1, m2.
Qed.
End Permutations.

(** ** Lookups by identifier *)

Lemma next_horse_inv (horses : list Horse) (x : Z) (h : Horse) :
  next_horse horses x = Ok h -> In h horses /\ id h = x.
Proof.
  unfold next_horse. destruct (find _ horses) as [h'|] eqn:E; [|discriminate].
  intro H. injection H as <-. apply find_some in E.
  now rewrite Z.eqb_eq in E.
Qed.

Lemma next_horse_In (horses : list Horse) (x : Z) :
  In x (map id horses) -> exists h, next_horse horses x = Ok h.
Proof.
  intro H. unfold next_horse.
  destruct (find _ horses) as [h'|] eqn:E; [now eexists|].
  apply in_map_iff in H. destruct H as (h & <- & Hin).
  apply (find_none _ _ E) in Hin. rewrite Z.eqb_refl in Hin. discriminate.
Qed.

(** ** Exacta *)

Lemma exacta_joint_defined (horses : list Horse) (a b : Z) :
  Forall (fun h => win_probability h <= 1) horses ->
  In a (map id horses) -> In b (map id horses) ->
  exists v, exacta_joint horses [a; b] = Ok v.
Proof.
  intros V Ha Hb. unfold exacta_joint. simpl.
  destruct (next_horse_In _ _ Ha) as (h1 & E1).
  destruct (next_horse_In _ _ Hb) as (h2 & E2).
  rewrite E1, E2. simpl.
  apply next_horse_inv in E1. destruct E1 as (I1 & _).
  rewrite Forall_forall in V. specialize (V _ I1).
  rewrite fdiv_ok; [now eexists|]. unfold epsilon. lra.
Qed.

(** C6: for a field of n horses with pairwise-distinct identifiers, a
    mapping returned by the exacta computation has exactly n*(n-1) entries,
    with pairwise-distinct keys that are exactly the ordered pairs of
    distinct identifiers of the field; and the mapping is returned whenever
    no win probability exceeds 1. *)
Theorem exacta_mapping_entries (horses : list Horse) :
  NoDup (map id horses) ->
  (forall d, _calculate_exacta_probabilities horses = Ok d ->
     PyDict.len d = (length horses * (length horses - 1))%nat /\
     NoDup (PyDict.keys d) /\
     forall k, In k (PyDict.keys d) <->
       exists a b, k = [a; b] /\ In a (map id horses) /\
                   In b (map id horses) /\ a <> b) /\
  (Forall (fun h => win_probability h <= 1) horses ->
   exists d, _calculate_exacta_probabilities horses = Ok d).
Proof.
  intro N. unfold _calculate_exacta_probabilities.
  pose proof (permutations_NoDup (map id horses) 2 N) as NP.
  rewrite fill_fresh by exact NP. unfold PyDict.empty. cbn [app]. split.
  - intros d H.
    destruct (mapM _ _) as [vs|] eqn:E; cbn [bind] in H; [|discriminate].
    assert (Hd : d = combine (permutations (map id horses) 2) vs)
      by congruence.
    subst d. clear H. apply mapM_length in E.
    assert (K : PyDict.keys (combine (permutations (map id horses) 2) vs)
                = permutations (map id horses) 2)
      by (apply combine_keys, E).
    split; [|split].
    + unfold PyDict.len. rewrite length_combine, E, Nat.min_id.
      rewrite permutations_length, length_map. simpl. lia.
    + now rewrite K.
    + intro k. rewrite K. now apply permutations_2_In.
  - intro V.
    destruct (mapM_total (exacta_joint horses) (permutations (map id horses) 2))
      as (vs & ->).
    + intros t Ht. apply (permutations_2_In _ _ N) in Ht.
      destruct Ht as (a & b & -> & Ha & Hb & _).
      now apply exacta_joint_defined.
    + cbn [bind]. now eexists.
Qed.

(** ** Stable sorting, largest key first *)

Section SortingFacts.
Context {A : Type} (key : A -> Q).

Lemma insert_desc_perm (x : A) (l : list A) :
  Permutation (insert_desc key x l) (x :: l).
Proof.
  induction l as [|y l IH]; simpl; [reflexivity|].
  destruct (Qltb (key x) (key y)); [|reflexivity].
  rewrite IH. apply perm_swap.
Qed.

Lemma sorted_desc_perm (l : list A) : Permutation (sorted_desc key l) l.
Proof.
  induction l as [|x l IH]; simpl; [reflexivity|].
  rewrite insert_desc_perm. now apply perm_skip.
Qed.

Lemma insert_desc_sorted (x : A) (l : list A) :
  StronglySorted (not_above key) l ->
  StronglySorted (not_above key) (insert_desc key x l).
Proof.
  induction 1 as [|y l S IH F]; simpl.
  - constructor; constructor.
  - destruct (Qltb (key x) (key y)) eqn:E.
    + apply Qltb_lt in E. constructor; [exact IH|].
      apply Forall_forall. intros z Hz.
      apply (Permutation_in _ (insert_desc_perm x l)) in Hz.
      destruct Hz as [<-|Hz].
      * unfold not_above. lra.
      * rewrite Forall_forall in F. now apply F.
    + apply Qltb_ge in E. constructor; [now constructor|].
      constructor; [exact E|].
      apply Forall_forall. intros z Hz. rewrite Forall_forall in F.
      specialize (F z Hz). unfold not_above in *. lra.
Qed.

Lemma sorted_desc_sorted (l : list A) :
  StronglySorted (not_above key) (sorted_desc key l).
Proof.
  induction l as [|x l IH]; simpl; [constructor|].
  now apply insert_desc_sorted.
Qed.

Lemma sorted_split (l1 l2 : list A) :
  StronglySorted (not_above key) (l1 ++ l2) ->
  forall a b, In a l1 -> In b l2 -> key b <= key a.
Proof.
  induction l1 as [|x l1 IH]; simpl; intros S a b Ha Hb; [tauto|].
  inversion S as [|? ? S' F]; subst. destruct Ha as [<-|Ha].
  - rewrite Forall_forall in F. apply F. apply in_or_app. now right.
  - now apply (IH S' a b).
Qed.


End SortingFacts.



Lemma fill_keys (f : tuple -> result Q) (perms : list tuple) (d : PyDict.t Q) :
  fill f perms PyDict.empty = Ok d ->
  forall k, In k (PyDict.keys d) -> In k perms.
Proof.
  intros H k Hk. apply get_In_keys in Hk.
  destruct (PyDict.get k d) as [v|] eqn:G; [|congruence].
  destruct (fill_get _ _ _ _ H _ _ G) as [G0|[Hin _]]; [discriminate|exact Hin].
Qed.


(** ** Signals *)

Lemma build_signals_In (clock : nat -> Z) (bets : list ExoticBet) :
  forall i s, In s (build_signals clock i bets) ->
  exists t bet, In bet bets /\ s = signal_of t bet.
Proof.
  induction bets as [|b bets IH]; simpl; intros i s H; [tauto|].
  destruct H as [<-|H].
  - exists (clock i), b. auto.
  - destruct (IH _ _ H) as (t & bet & Hin & ->). exists t, bet. auto.
Qed.

Lemma build_signals_complete (clock : nat -> Z) (bets : list ExoticBet) :
  forall i bet, In bet bets ->
  exists t, In (signal_of t bet) (build_signals clock i bets).
Proof.
  induction bets as [|b bets IH]; simpl; intros i bet H; [tauto|].
  destruct H as [->|H].
  - exists (clock i). now left.
  - destruct (IH (S i) _ H) as (t & Ht). exists t. now right.
Qed.

Lemma build_signals_length (clock : nat -> Z) (bets : list ExoticBet) :
  forall i, length (build_signals clock i bets) = length bets.
Proof.
  induction bets as [|b bets IH]; simpl; intro i; [reflexivity|].
  now rewrite IH.
Qed.

Lemma signal_for_signal_of (t : Z) (bet : ExoticBet) :
  signal_for (signal_of t bet) bet.
Proof. repeat split. Qed.

Lemma generate_ev_signals_In clock self bets s :
  In s (fst (generate_ev_signals clock self bets)) <->
  In s (build_signals clock 0
          (filter (fun bet => Qltb (min_ev_threshold self) (expected_value bet))
                  bets)).
Proof.
  unfold generate_ev_signals. simpl. split; apply Permutation_in.
  - apply sorted_desc_perm.
  - symmetry. apply sorted_desc_perm.
Qed.

(** C8: the signals returned are as many as the bets whose expected value is
    strictly above the threshold, and a bet of the input has a signal among
    them if and only if its expected value is strictly above the threshold;
    in particular a bet whose expected value equals the threshold has none.
    The threshold of a new generator is 0.05. *)
Theorem signal_iff_ev_above_threshold
  (clock : nat -> Z) (self : EVSignalGenerator) (exotic_bets : list ExoticBet) :
  let signals := fst (generate_ev_signals clock self exotic_bets) in
  length signals =
    length (filter (fun bet => Qltb (min_ev_threshold self) (expected_value bet))
                   exotic_bets) /\
  (forall bet, In bet exotic_bets ->
     ((exists s, In s signals /\ signal_for s bet) <->
      min_ev_threshold self < expected_value bet)) /\
  (forall bet, In bet exotic_bets ->
     expected_value bet == min_ev_threshold self ->
     ~ exists s, In s signals /\ signal_for s bet) /\
  min_ev_threshold new_signal_generator == 5 # 100.
Proof.
  intro signals.
  assert (Hiff : forall bet, In bet exotic_bets ->
     ((exists s, In s signals /\ signal_for s bet) <->
      min_ev_threshold self < expected_value bet)).
  { intros bet Hin. split.
    - intros (s & Hs & F). apply generate_ev_signals_In in Hs.
      apply build_signals_In in Hs. destruct Hs as (t & bet' & Hb & ->).
      apply filter_In in Hb. destruct Hb as (_ & Hb). apply Qltb_lt in Hb.
      destruct F as (_ & _ & _ & F & _). simpl in F. now rewrite <- F.
    - intro H.
      destruct (build_signals_complete clock
                  (filter (fun b => Qltb (min_ev_threshold self) (expected_value b))
                          exotic_bets) 0 bet) as (t & Ht).
      + apply filter_In. split; [exact Hin|]. now apply Qltb_lt.
      + exists (signal_of t bet). split.
        * now apply generate_ev_signals_In.
        * apply signal_for_signal_of. }
  split; [|split; [exact Hiff|split]].
  - subst signals. unfold generate_ev_signals. simpl.
    rewrite (Permutation_length (sorted_desc_perm _ _)).
    apply build_signals_length.
  - intros bet Hin E H. apply (Hiff bet Hin) in H. lra.
  - reflexivity.
Qed.

Lemma signal_iff_ev_above_threshold_witness :
  let kept := mkExoticBet exacta [1; 2]%Z (15 # 100) 8 (2 # 10) (3 # 100) (1 # 2) in
  let edge := mkExoticBet exacta [2; 1]%Z (15 # 100) 7 (5 # 100) 0 (1 # 2) in
  let signals :=
    fst (generate_ev_signals (fun _ => 0%Z) new_signal_generator [kept; edge]) in
  (exists s, In s signals /\ signal_for s kept) /\
  (~ exists s, In s signals /\ signal_for s edge) /\
  length signals = 1%nat.
Proof.
  intros kept edge signals.
  destruct (signal_iff_ev_above_threshold (fun _ => 0%Z) new_signal_generator
              [kept; edge]) as (L & I & N & _).
  split; [|split].
  - apply (I kept); [now left|]. reflexivity.
  - apply (N edge); [right; now left|]. reflexivity.
  - exact L.
Defined.

(** ** Generated bets *)

Lemma In_firstn {A : Type} (n : nat) (l : list A) (x : A) :
  In x (firstn n l) -> In x l.
Proof.
  intro H. rewrite <- (firstn_skipn n l). apply in_or_app. now left.
Qed.

Lemma In_py_prefix {A : Type} (n : Z) (l : list A) (x : A) :
  In x (py_prefix n l) -> In x l.
Proof.
  unfold py_prefix. destruct (0 <=? n)%Z; apply In_firstn.
Qed.





(** Facts about concrete races: bounds on literals, distinct identifiers. *)
Ltac concrete_race :=
  unfold valid_race; split;
  [ repeat (constructor; [simpl; repeat split; concrete_bound|]); constructor
  | simpl; repeat (constructor; [simpl; intuition discriminate|]); constructor ].

Lemma small_field_valid : valid_race small_field.
Proof. concrete_race. Qed.


(** ** Joint values above 1 *)

(** C10: a joint value of the engine can exceed 1.  For two horses with
    model probability 1 at odds 2 (a valid race: probabilities within
    [0,1], positive odds, distinct identifiers) calibration gives 0.85 to
    each and the exacta mapping gives the pair (1, 2) a value above 1. *)
Theorem exacta_joint_can_exceed_one :
  exists horses, valid_race horses /\
    exists calibrated d k v,
      calibrate_win_probabilities horses = Ok calibrated /\
      _calculate_exacta_probabilities calibrated = Ok d /\
      PyDict.get k d = Some v /\ 1 < v.
Proof.
  exists two_favourites. split; [concrete_race|].
  eexists. eexists. exists [1; 2]%Z. eexists.
  split; [vm_compute; reflexivity|].
  split; [vm_compute; reflexivity|].
  split; [vm_compute; reflexivity|].
  vm_compute. reflexivity.
Qed.

(** ** Division by zero *)

(** C2 fails on the code.  Both races below are valid (probabilities within
    [0,1], positive odds, distinct identifiers).  On the first the trifecta
    computation divides by 1 - 1 - 1e-10 + 1e-10 = 0; on the second the
    superfecta computation, which adds no epsilon, divides by the sum 0 of
    the remaining win probabilities.  Both raise [ZeroDivisionError]. *)
Theorem joint_probabilities_divide_by_zero :
  valid_race certain_winner_field /\
  _calculate_trifecta_probabilities certain_winner_field
    = Raise ZeroDivisionError /\
  generate_trifecta_combinations certain_winner_field 15
    = Raise ZeroDivisionError /\
  valid_race no_hopers /\
  _calculate_superfecta_probabilities no_hopers = Raise ZeroDivisionError /\
  generate_superfecta_combinations no_hopers 10 = Raise ZeroDivisionError.
Proof.
  split; [concrete_race|]. split; [vm_compute; reflexivity|].
  split; [vm_compute; reflexivity|]. split; [concrete_race|].
  split; vm_compute; reflexivity.
Qed.

(** ** Superfecta: renormalization over the remaining horses *)













Lemma top_horses_ids (n : nat) (horses : list Horse) :
  NoDup (map id horses) ->
  NoDup (map id (top_horses n horses)) /\
  forall x, In x (map id (top_horses n horses)) -> In x (map id horses).
Proof.
  intro N. unfold top_horses.
  pose proof (sorted_desc_perm win_probability horses) as P.
  assert (NS : NoDup (map id (sorted_desc win_probability horses))).
  { apply (Permutation_NoDup (l := map id horses)); [|exact N].
    symmetry. now apply Permutation_map. }
  rewrite <- (firstn_skipn n (sorted_desc win_probability horses)), map_app in NS.
  split.
  - now apply NoDup_app_remove_r in NS.
  - intros x Hx. apply in_map_iff in Hx. destruct Hx as (h & <- & Hh).
    apply in_map. apply (Permutation_in _ P). now apply In_firstn in Hh.
Qed.





(** ** The model on concrete inputs *)

Example permutations_order :
  permutations [1; 2; 3]%Z 2 =
  [[1; 2]; [1; 3]; [2; 1]; [2; 3]; [3; 1]; [3; 2]]%Z.
Proof. reflexivity. Qed.

Example top_horses_tie : map id (top_horses 2 tie_field) = [2; 1]%Z.
Proof. reflexivity. Qed.

Example kelly_scenario :
  exists k, _calculate_kelly_fraction (15 # 100) 8 = Ok k /\ k == 2 # 70.
Proof. eexists. split; reflexivity. Qed.

Lemma exacta_mapping_entries_witness :
  NoDup (map id small_field) /\
  exists d, _calculate_exacta_probabilities small_field = Ok d /\
            PyDict.len d = 12%nat /\ In [2; 1]%Z (PyDict.keys d).
Proof.
  assert (N : NoDup (map id small_field)) by apply small_field_valid.
  split; [exact N|].
  destruct (exacta_mapping_entries small_field N) as (V & D).
  destruct D as (d & Ed).
  { repeat (constructor; [concrete_bound|]). constructor. }
  destruct (V d Ed) as (L & _ & K).
  exists d. split; [exact Ed|]. split; [exact L|].
  apply K. exists 2%Z, 1%Z. simpl. intuition discriminate.
Defined.



(** * Further properties of the module *)

(** ** Place and show estimates *)

Lemma py_min_le_l (a b : Q) : py_min a b <= a.
Proof.
  unfold py_min. destruct (Qltb b a) eqn:E.
  - apply Qltb_lt in E. lra.
  - lra.
Qed.

Lemma py_min_le_r (a b : Q) : py_min a b <= b.
Proof.
  unfold py_min. destruct (Qltb b a) eqn:E.
  - lra.
  - apply Qltb_ge in E. exact E.
Qed.


Ltac by_field_size n :=
  unfold _estimate_place_probability, _estimate_show_probability;
  destruct (Nat.leb_spec n 4), (Nat.leb_spec n 8),
           (Nat.leb_spec n 5), (Nat.leb_spec n 10); try lia.

Ltac min_cases :=
  repeat match goal with
  | |- context [py_min ?a ?b] =>
      let E := fresh "E" in
      unfold py_min at 1; destruct (Qltb b a) eqn:E;
      [apply Qltb_lt in E | apply Qltb_ge in E]
  end.

(** For a non-negative win probability the place estimate lies in
    [0, 0.95], the show estimate in [0, 0.98], the show estimate is never
    below the place estimate, and the place estimate is not below the win
    probability as long as that is at most 0.85. *)
Theorem place_show_estimates (win_prob : Q) (field_size : nat) :
  0 <= win_prob ->
  0 <= _estimate_place_probability win_prob field_size <= 95 # 100 /\
  0 <= _estimate_show_probability win_prob field_size <= 98 # 100 /\
  _estimate_place_probability win_prob field_size
    <= _estimate_show_probability win_prob field_size /\
  (win_prob <= 85 # 100 ->
   win_prob <= _estimate_place_probability win_prob field_size).
Proof.
  intro H. split; [|split; [|split; [|intro H']]];
    by_field_size field_size; min_cases; lra.
Qed.

Lemma place_show_estimates_witness :
  0 <= 4 # 10 /\
  _estimate_place_probability (4 # 10) 6 == 88 # 100 /\
  _estimate_place_probability (4 # 10) 6 <= _estimate_show_probability (4 # 10) 6.
Proof.
  assert (H : 0 <= 4 # 10) by concrete_bound.
  split; [exact H|]. split; [reflexivity|].
  exact (proj1 (proj2 (proj2 (place_show_estimates (4 # 10) 6 H)))).
Defined.

(** ** Calibration: ranges, sums, repetition *)





(** Calibration keeps the field: a list it returns has as many horses, in
    the same order, with the same identifiers, names, odds, riders and
    ratings; identifiers that were pairwise distinct stay so. *)
Theorem calibration_keeps_the_field (horses calibrated : list Horse) :
  calibrate_win_probabilities horses = Ok calibrated ->
  length calibrated = length horses /\
  map id calibrated = map id horses /\
  map name calibrated = map name horses /\
  map odds calibrated = map odds horses /\
  map jockey calibrated = map jockey horses /\
  map trainer calibrated = map trainer horses /\
  map form_rating calibrated = map form_rating horses /\
  map speed_rating calibrated = map speed_rating horses /\
  map class_rating calibrated = map class_rating horses /\
  (NoDup (map id horses) -> NoDup (map id calibrated)).
Proof.
  intro E. rewrite calibrate_ok in E.
  assert (Hc : calibrated =
               map (fun h => calibrated_horse (length horses) h
                               (market_share horses h)) horses)
    by congruence.
  subst calibrated. rewrite length_map, !map_map. simpl. repeat split.
  intro N. exact N.
Qed.

Lemma calibration_keeps_the_field_witness :
  exists calibrated,
    calibrate_win_probabilities small_field = Ok calibrated /\
    map id calibrated = [1; 2; 3; 4]%Z /\
    map odds calibrated = map odds small_field.
Proof.
  destruct (calibrate_win_probabilities small_field) as [cal|] eqn:E;
    [|rewrite calibrate_ok in E; discriminate E].
  exists cal. split; [reflexivity|].
  destruct (calibration_keeps_the_field small_field cal E)
    as (_ & I & _ & O & _).
  split; [exact I|exact O].
Defined.

Lemma py_sum_blend {A : Type} (f g : A -> Q) (a b : Q) (l : list A) :
  py_sum (map (fun x => a * f x + b * g x) l)
  == a * py_sum (map f l) + b * py_sum (map g l).
Proof.
  induction l as [|x l IH]; simpl.
  - unfold py_sum; simpl. ring.
  - rewrite !py_sum_cons, IH. ring.
Qed.

(** The calibrated win probabilities of a non-empty field add up to 0.7
    times the sum of the model probabilities plus 0.3; they add up to 1
    exactly when the model probabilities do. *)
Theorem calibrated_sum (horses calibrated : list Horse) :
  horses <> [] ->
  calibrate_win_probabilities horses = Ok calibrated ->
  py_sum (map win_probability calibrated)
    == (7 # 10) * py_sum (map win_probability horses) + (3 # 10) /\
  (py_sum (map win_probability calibrated) == 1 <->
   py_sum (map win_probability horses) == 1).
Proof.
  intros Hne E. rewrite calibrate_ok in E. injection E as <-.
  assert (S : py_sum (map win_probability
                (map (fun h => calibrated_horse (length horses) h
                                 (market_share horses h)) horses))
              == (7 # 10) * py_sum (map win_probability horses) + (3 # 10)).
  { rewrite map_map. unfold calibrated_horse. cbn [win_probability].
    unfold model_weight, market_weight.
    rewrite (py_sum_blend win_probability (market_share horses)).
    rewrite (market_share_sum horses Hne).
    apply Qplus_comp; reflexivity. }
  split; [exact S|]. rewrite S. split; intro H; lra.
Qed.

Lemma calibrated_sum_witness :
  exists calibrated,
    calibrate_win_probabilities small_field = Ok calibrated /\
    py_sum (map win_probability calibrated) == 1.
Proof.
  destruct (calibrate_win_probabilities small_field) as [cal|] eqn:E;
    [|rewrite calibrate_ok in E; discriminate E].
  exists cal. split; [reflexivity|].
  assert (Hne : small_field <> []) by discriminate.
  apply (proj2 (calibrated_sum small_field cal Hne E)). reflexivity.
Defined.





(** ** Entries of the probability mappings *)

(** After [fill], a tuple of the list has the value of [f]; any other key
    is as before. *)
Lemma fill_complete (f : tuple -> result Q) (perms : list tuple) :
  forall d0 d, fill f perms d0 = Ok d ->
  forall k,
    (In k perms -> exists v, f k = Ok v /\ PyDict.get k d = Some v) /\
    (~ In k perms -> PyDict.get k d = PyDict.get k d0).
Proof.
  induction perms as [|p perms IH]; intros d0 d H k.
  - simpl in H. assert (d = d0) by congruence. subst. split; [intros []|reflexivity].
  - cbn [fill] in H. destruct (f p) as [w|e] eqn:Fp; cbn [bind] in H;
      [|discriminate H].
    destruct (IH _ _ H k) as (I1 & I2).
    destruct (in_dec (list_eq_dec Z.eq_dec) k perms) as [Hin|Hout].
    + split; [intros _; now apply I1|]. intro N. exfalso. apply N. now right.
    + rewrite (I2 Hout), get_set. split.
      * intros [->|Hin]; [|contradiction].
        rewrite tuple_eqb_refl. now exists w.
      * intro N. destruct (tuple_eqb k p) eqn:E; [|reflexivity].
        apply tuple_eqb_eq in E. subst. exfalso. apply N. now left.
Qed.

Lemma NoDup_ids_inj (horses : list Horse) (a b : Horse) :
  NoDup (map id horses) -> In a horses -> In b horses -> id a = id b -> a = b.
Proof.
  induction horses as [|h horses IH]; simpl; intros N Ha Hb E; [destruct Ha|].
  inversion N as [|? ? Hh N']; subst.
  destruct Ha as [->|Ha], Hb as [->|Hb].
  - reflexivity.
  - exfalso. apply Hh. rewrite E. now apply in_map.
  - exfalso. apply Hh. rewrite <- E. now apply in_map.
  - now apply IH.
Qed.

Lemma next_horse_unique (horses : list Horse) (h : Horse) :
  NoDup (map id horses) -> In h horses -> next_horse horses (id h) = Ok h.
Proof.
  intros N Hin.
  destruct (next_horse_In horses (id h) (in_map id _ _ Hin)) as (h' & E).
  rewrite E. f_equal. apply next_horse_inv in E. destruct E as (Hin' & E).
  now apply (NoDup_ids_inj horses).
Qed.

Lemma permutations_short {A : Type} (r : nat) :
  forall l : list A, (length l < r)%nat -> permutations l r = [].
Proof.
  induction r as [|r IH]; intros l H; [lia|].
  cbn [permutations].
  assert (S : forall p, In p (selections l) ->
                map (cons (fst p)) (permutations (snd p) r) = []).
  { intros [x rest] Hp. apply selections_In in Hp.
    destruct Hp as (l1 & l2 & -> & ->). cbn [fst snd].
    rewrite IH; [reflexivity|]. rewrite length_app in *. simpl in H. lia. }
  induction (selections l) as [|p s IHs]; [reflexivity|].
  cbn [flat_map]. rewrite (S p (or_introl eq_refl)), IHs; [reflexivity|].
  intros q Hq. apply S. now right.
Qed.

(** The tuples drawn from pairwise-distinct elements: the lists of the
    right length, without repetition, of elements of the list. *)
Lemma permutations_In_NoDup {A : Type} (r : nat) :
  forall (l t : list A), NoDup l ->
  (In t (permutations l r) <-> length t = r /\ NoDup t /\ incl t l).
Proof.
  induction r as [|r IH]; intros l t N.
  - simpl. split.
    + intros [<-|[]]. repeat split; [constructor|intros x []].
    + intros (L & _). destruct t; [now left|discriminate].
  - rewrite permutations_In_S. split.
    + intros (x & rest & t' & Hs & Ht' & ->).
      apply selections_In in Hs. destruct Hs as (l1 & l2 & -> & ->).
      pose proof (NoDup_remove_1 _ _ _ N) as N1.
      pose proof (NoDup_remove_2 _ _ _ N) as N2.
      apply (IH _ _ N1) in Ht'. destruct Ht' as (L & ND & I).
      split; [simpl; congruence|]. split.
      * constructor; [|exact ND]. intro Hx. apply N2. now apply I.
      * intros y [<-|Hy]; [apply in_elt|].
        apply I in Hy. apply in_app_or in Hy. apply in_or_app. simpl. tauto.
    + intros (L & ND & I). destruct t as [|x t']; [discriminate|].
      inversion ND as [|? ? Hx ND']; subst.
      destruct (in_split x l (I x (or_introl eq_refl))) as (l1 & l2 & ->).
      exists x, (l1 ++ l2), t'. split; [|split; [|reflexivity]].
      * apply selections_In. now exists l1, l2.
      * apply IH; [now apply NoDup_remove_1 in N|].
        split; [simpl in L; congruence|]. split; [exact ND'|].
        intros y Hy. pose proof (I y (or_intror Hy)) as Hl.
        apply in_app_or in Hl. apply in_or_app.
        destruct Hl as [Hl|[->|Hl]]; [now left|contradiction|now right].
Qed.

(** The value of the exacta mapping: with pairwise-distinct identifiers,
    the ordered pair of two different horses [a], [b] of the field is given
    p(a) * (p(b) / (1 - p(a) + 1e-10)). *)
Theorem exacta_value (horses : list Horse) (d : PyDict.t Q) (a b : Horse) :
  NoDup (map id horses) ->
  _calculate_exacta_probabilities horses = Ok d ->
  In a horses -> In b horses -> id a <> id b ->
  PyDict.get [id a; id b] d =
  Some (win_probability a
        * (win_probability b / (1 - win_probability a + epsilon))).
Proof.
  intros N H Ha Hb Hab. unfold _calculate_exacta_probabilities in H.
  destruct (fill_complete _ _ _ _ H [id a; id b]) as (I & _).
  destruct I as (v & Fv & G).
  - apply permutations_2_In; [exact N|]. exists (id a), (id b).
    split; [reflexivity|]. split; [now apply in_map|].
    split; [now apply in_map|exact Hab].
  - rewrite G. f_equal. unfold exacta_joint in Fv. cbn [item nth_error bind] in Fv.
    rewrite (next_horse_unique horses a N Ha) in Fv. cbn [bind] in Fv.
    rewrite (next_horse_unique horses b N Hb) in Fv. cbn [bind] in Fv.
    destruct (fdiv _ _) as [q|] eqn:D; cbn [bind] in Fv; [|discriminate Fv].
    apply fdiv_inv in D. destruct D as (_ & ->). congruence.
Qed.

Lemma exacta_value_witness :
  exists d,
    _calculate_exacta_probabilities small_field = Ok d /\
    PyDict.get [2; 1]%Z d = Some ((3 # 10) * ((4 # 10) / (1 - (3 # 10) + epsilon))).
Proof.
  destruct (_calculate_exacta_probabilities small_field) as [d|] eqn:E;
    [|vm_compute in E; discriminate E].
  exists d. split; [reflexivity|].
  apply (exacta_value small_field d (plain_horse 2 (3 # 10) 3)
           (plain_horse 1 (4 # 10) 2)).
  - apply small_field_valid.
  - exact E.
  - simpl. tauto.
  - simpl. tauto.
  - discriminate.
Defined.

Lemma top_horses_length (n : nat) (horses : list Horse) :
  length (top_horses n horses) = Nat.min n (length horses).
Proof.
  unfold top_horses. rewrite length_firstn. f_equal.
  apply Permutation_length, sorted_desc_perm.
Qed.

Lemma top_horses_In (n : nat) (horses : list Horse) (h : Horse) :
  In h (top_horses n horses) -> In h horses.
Proof.
  intro H. apply In_firstn in H.
  now apply (Permutation_in _ (sorted_desc_perm win_probability horses)).
Qed.

(** The trifecta mapping of a field with pairwise-distinct identifiers has
    one entry for each ordered triple of the pool of the top 6, at most 120,
    and the triple of three different horses [a], [b], [c] of the pool is
    given p(a) * (p(b) / (1 - p(a) + 1e-10)) * (p(c) / (1 - p(a) - p(b) + 1e-10)),
    from the win probabilities as they are, not renormalized. *)
Theorem trifecta_entries (horses : list Horse) (d : PyDict.t Q) :
  NoDup (map id horses) ->
  _calculate_trifecta_probabilities horses = Ok d ->
  PyDict.len d = falling (Nat.min 6 (length horses)) 3 /\
  (PyDict.len d <= 120)%nat /\
  forall a b c,
    In a (top_horses 6 horses) -> In b (top_horses 6 horses) ->
    In c (top_horses 6 horses) ->
    id a <> id b -> id a <> id c -> id b <> id c ->
    PyDict.get [id a; id b; id c] d =
    Some (win_probability a
          * (win_probability b / (1 - win_probability a + epsilon))
          * (win_probability c
             / (1 - win_probability a - win_probability b + epsilon))).
Proof.
  intros N H. unfold _calculate_trifecta_probabilities in H.
  destruct (top_horses_ids 6 horses N) as (NT & IT).
  assert (L : PyDict.len d = falling (Nat.min 6 (length horses)) 3).
  { pose proof (permutations_NoDup _ 3 NT) as NP.
    rewrite fill_fresh in H by exact NP. unfold PyDict.empty in H.
    cbn [app] in H.
    destruct (mapM _ _) as [vs|] eqn:E; cbn [bind] in H; [|discriminate H].
    assert (Hd : d = combine (permutations (map id (top_horses 6 horses)) 3) vs)
      by congruence.
    subst d. apply mapM_length in E. unfold PyDict.len.
    rewrite length_combine, E, Nat.min_id, permutations_length, length_map.
    now rewrite top_horses_length. }
  split; [exact L|]. split.
  - rewrite L. destruct (Nat.min_spec 6 (length horses)) as [[_ ->]|[B ->]].
    + simpl. lia.
    + destruct (length horses) as [|[|[|[|[|[|[|?]]]]]]]; simpl; lia.
  - intros a b c Ha Hb Hc Hab Hac Hbc.
    destruct (fill_complete _ _ _ _ H [id a; id b; id c]) as (I & _).
    destruct I as (v & Fv & G).
    + apply (permutations_In_NoDup 3 _ _ NT). split; [reflexivity|]. split.
      * repeat constructor; simpl; intuition congruence.
      * intros x [<-|[<-|[<-|[]]]]; now apply in_map.
    + rewrite G. f_equal. unfold trifecta_joint in Fv.
      cbn [item nth_error bind] in Fv.
      rewrite (next_horse_unique horses a N (top_horses_In _ _ _ Ha)) in Fv.
      cbn [bind] in Fv.
      rewrite (next_horse_unique horses b N (top_horses_In _ _ _ Hb)) in Fv.
      cbn [bind] in Fv.
      rewrite (next_horse_unique horses c N (top_horses_In _ _ _ Hc)) in Fv.
      cbn [bind] in Fv.
      destruct (fdiv (win_probability b) _) as [q|] eqn:D; cbn [bind] in Fv;
        [|discriminate Fv].
      destruct (fdiv (win_probability c) _) as [q'|] eqn:D'; cbn [bind] in Fv;
        [|discriminate Fv].
      apply fdiv_inv in D, D'. destruct D as (_ & ->), D' as (_ & ->).
      congruence.
Qed.

Lemma trifecta_entries_witness :
  exists d,
    _calculate_trifecta_probabilities small_field = Ok d /\
    PyDict.len d = 24%nat.
Proof.
  destruct (_calculate_trifecta_probabilities small_field) as [d|] eqn:E;
    [|vm_compute in E; discriminate E].
  exists d. split; [reflexivity|].
  assert (N : NoDup (map id small_field)) by apply small_field_valid.
  exact (proj1 (trifecta_entries small_field d N E)).
Defined.

(** The trifecta computation returns its mapping when the identifiers are
    pairwise distinct, no win probability exceeds 1 and no two horses have
    win probabilities adding up to more than 1: the epsilon then keeps both
    denominators positive. *)
Theorem trifecta_defined (horses : list Horse) :
  NoDup (map id horses) ->
  (forall h, In h horses -> win_probability h <= 1) ->
  (forall a b, In a horses -> In b horses -> id a <> id b ->
     win_probability a + win_probability b <= 1) ->
  exists d, _calculate_trifecta_probabilities horses = Ok d.
Proof.
  intros N V P. unfold _calculate_trifecta_probabilities.
  destruct (top_horses_ids 6 horses N) as (NT & IT).
  rewrite fill_fresh by (apply permutations_NoDup, NT).
  destruct (mapM_total (trifecta_joint horses)
              (permutations (map id (top_horses 6 horses)) 3)) as (vs & ->);
    [|cbn [bind]; now eexists].
  intros t Ht. apply (permutations_In_NoDup 3 _ _ NT) in Ht.
  destruct Ht as (L & ND & I).
  destruct t as [|x [|y [|z [|? ?]]]]; try discriminate L.
  unfold trifecta_joint. cbn [item nth_error bind].
  destruct (next_horse_In horses x) as (h1 & E1);
    [apply IT, I; simpl; tauto|].
  destruct (next_horse_In horses y) as (h2 & E2);
    [apply IT, I; simpl; tauto|].
  destruct (next_horse_In horses z) as (h3 & E3);
    [apply IT, I; simpl; tauto|].
  rewrite E1, E2, E3. cbn [bind].
  apply next_horse_inv in E1, E2. destruct E1 as (I1 & <-), E2 as (I2 & <-).
  assert (Hxy : id h1 <> id h2).
  { inversion ND as [|? ? Hx _]; subst. intro E. apply Hx. left. now symmetry. }
  pose proof (V h1 I1). pose proof (P h1 h2 I1 I2 Hxy).
  rewrite !fdiv_ok by (unfold epsilon; lra). cbn [bind]. now eexists.
Qed.

Lemma trifecta_defined_witness :
  exists d, _calculate_trifecta_probabilities small_field = Ok d.
Proof.
  apply trifecta_defined.
  - apply small_field_valid.
  - intros h Hh. simpl in Hh.
    repeat (destruct Hh as [<-|Hh]; [simpl; concrete_bound|]). destruct Hh.
  - intros a b Ha Hb _. simpl in Ha, Hb.
    repeat (destruct Ha as [<-|Ha]);
      repeat (destruct Hb as [<-|Hb]); try tauto; simpl; concrete_bound.
Defined.

(** The superfecta mapping of a field with pairwise-distinct identifiers
    has one entry for each ordered 4-tuple of the pool of the top 5: at most
    120, and none when the field has fewer than 4 horses. *)
Theorem superfecta_size (horses : list Horse) (d : PyDict.t Q) :
  NoDup (map id horses) ->
  _calculate_superfecta_probabilities horses = Ok d ->
  PyDict.len d = falling (Nat.min 5 (length horses)) 4 /\
  (PyDict.len d <= 120)%nat /\
  NoDup (PyDict.keys d).
Proof.
  intros N H. unfold _calculate_superfecta_probabilities in H.
  destruct (top_horses_ids 5 horses N) as (NT & _).
  pose proof (permutations_NoDup _ 4 NT) as NP.
  rewrite fill_fresh in H by exact NP. unfold PyDict.empty in H.
  cbn [app] in H.
  destruct (mapM _ _) as [vs|] eqn:E; cbn [bind] in H; [|discriminate H].
  assert (Hd : d = combine (permutations (map id (top_horses 5 horses)) 4) vs)
    by congruence.
  subst d. apply mapM_length in E.
  assert (L : PyDict.len
                (combine (permutations (map id (top_horses 5 horses)) 4) vs)
              = falling (Nat.min 5 (length horses)) 4).
  { unfold PyDict.len.
    rewrite length_combine, E, Nat.min_id, permutations_length, length_map.
    now rewrite top_horses_length. }
  split; [exact L|]. split.
  - rewrite L. destruct (Nat.min_spec 5 (length horses)) as [[_ ->]|[B ->]].
    + simpl. lia.
    + destruct (length horses) as [|[|[|[|[|[|?]]]]]]; simpl; lia.
  - unfold PyDict.keys. now rewrite (combine_keys _ vs E).
Qed.

Lemma superfecta_size_witness :
  exists d,
    _calculate_superfecta_probabilities small_field = Ok d /\
    PyDict.len d = 24%nat.
Proof.
  destruct (_calculate_superfecta_probabilities small_field) as [d|] eqn:E;
    [|vm_compute in E; discriminate E].
  exists d. split; [reflexivity|].
  assert (N : NoDup (map id small_field)) by apply small_field_valid.
  exact (proj1 (superfecta_size small_field d N E)).
Defined.

(** ** Fields too small for a bet *)

Lemma small_pool (n r : nat) (horses : list Horse) :
  (length horses < r)%nat ->
  permutations (map id (top_horses n horses)) r = [].
Proof.
  intro H. apply permutations_short.
  rewrite length_map, top_horses_length. lia.
Qed.

Lemma make_bets_nil ty payout horses : make_bets ty payout horses [] = Ok [].
Proof. reflexivity. Qed.

(** A field with fewer horses than a bet needs gives an empty mapping and
    no bet, whatever the probabilities and odds: nothing is divided, so
    nothing is raised.  Below 2 horses all three mappings are empty. *)
Theorem small_fields_give_nothing (horses : list Horse) (m : Z) (ty : BetType) :
  (length horses < arity ty)%nat ->
  joint_probabilities ty horses = Ok PyDict.empty /\
  generate_combinations ty horses m = Ok [] /\
  ((length horses < 2)%nat ->
   calculate_joint_probabilities horses
   = Ok (PyDict.empty, PyDict.empty, PyDict.empty)).
Proof.
  intro H.
  assert (E2 : (length horses < 2)%nat ->
               _calculate_exacta_probabilities horses = Ok PyDict.empty).
  { intro L. unfold _calculate_exacta_probabilities.
    rewrite permutations_short by (rewrite length_map; exact L). reflexivity. }
  assert (E3 : (length horses < 3)%nat ->
               _calculate_trifecta_probabilities horses = Ok PyDict.empty).
  { intro L. unfold _calculate_trifecta_probabilities.
    now rewrite small_pool. }
  assert (E4 : (length horses < 4)%nat ->
               _calculate_superfecta_probabilities horses = Ok PyDict.empty).
  { intro L. unfold _calculate_superfecta_probabilities.
    now rewrite small_pool. }
  assert (P : py_prefix m (@nil ExoticBet) = []).
  { unfold py_prefix. destruct (0 <=? m)%Z; now rewrite firstn_nil. }
  split; [|split].
  - destruct ty; simpl in H |- *; auto.
  - destruct ty; simpl in H |- *.
    + unfold generate_exacta_combinations. rewrite (E2 H). cbn.
      now rewrite P.
    + unfold generate_trifecta_combinations. rewrite (E3 H). cbn.
      now rewrite P.
    + unfold generate_superfecta_combinations. rewrite (E4 H). cbn.
      now rewrite P.
  - intro L. unfold calculate_joint_probabilities.
    rewrite (E2 L), E3, E4 by lia. reflexivity.
Qed.

Lemma small_fields_give_nothing_witness :
  _calculate_superfecta_probabilities (firstn 3 no_hopers) = Ok PyDict.empty /\
  generate_superfecta_combinations (firstn 3 no_hopers) 10 = Ok [].
Proof.
  assert (H : (length (firstn 3 no_hopers) < arity superfecta)%nat)
    by (simpl; lia).
  destruct (small_fields_give_nothing (firstn 3 no_hopers) 10 superfecta H)
    as (A & B & _).
  split; [exact A|exact B].
Defined.

(** ** The bets a generator returns *)

Lemma joint_probabilities_fill (ty : BetType) (horses : list Horse) :
  exists f,
    joint_probabilities ty horses =
    fill f (permutations (map id (pool_of ty horses)) (arity ty)) PyDict.empty.
Proof.
  destruct ty; [exists (exacta_joint horses)|exists (trifecta_joint horses)
               |exists (superfecta_joint horses)]; reflexivity.
Qed.

Lemma generate_combinations_steps (ty : BetType) (horses : list Horse) (m : Z) :
  generate_combinations ty horses m =
  (d <- joint_probabilities ty horses ;;
   made <- make_bets ty (estimate_payout ty) horses (PyDict.items d) ;;
   Ok (py_prefix m (sorted_desc expected_value made))).
Proof. destruct ty; reflexivity. Qed.

Lemma pool_of_In (ty : BetType) (horses : list Horse) (h : Horse) :
  In h (pool_of ty horses) -> In h horses.
Proof. destruct ty; simpl; [tauto|apply top_horses_In|apply top_horses_In]. Qed.

(** A key of a mapping has the arity of the bet and identifiers of the field. *)
Lemma joint_probabilities_keys (ty : BetType) (horses : list Horse) d k :
  joint_probabilities ty horses = Ok d -> In k (PyDict.keys d) ->
  length k = arity ty /\ forall x, In x k -> In x (map id horses).
Proof.
  intros H Hk. destruct (joint_probabilities_fill ty horses) as (f & E).
  rewrite E in H. apply (fill_keys _ _ _ H) in Hk.
  apply permutations_drawn in Hk. destruct Hk as (L & others & P).
  split; [exact L|]. intros x Hx.
  assert (Hp : In x (map id (pool_of ty horses))).
  { apply (Permutation_in _ P). apply in_or_app. now left. }
  apply in_map_iff in Hp. destruct Hp as (h & <- & Hh).
  apply in_map. now apply (pool_of_In ty).
Qed.

Lemma make_bets_inv ty payout horses entries :
  forall bets, make_bets ty payout horses entries = Ok bets ->
  Forall (fun b =>
            bet_type b = ty /\
            In (combination b, probability b) entries /\
            payout (combination b) horses = Ok (payout_odds b) /\
            expected_value b = probability b * payout_odds b - 1 /\
            _calculate_kelly_fraction (probability b) (payout_odds b)
              = Ok (kelly_fraction b) /\
            _calculate_confidence_score (combination b) horses (probability b)
              = Ok (confidence_score b)) bets.
Proof.
  induction entries as [|[c p] entries IH]; intros bets H.
  - simpl in H. assert (bets = []) by congruence. subst. constructor.
  - cbn [make_bets] in H.
    assert (IH' : forall bs, make_bets ty payout horses entries = Ok bs ->
              Forall (fun b =>
                bet_type b = ty /\
                In (combination b, probability b) ((c, p) :: entries) /\
                payout (combination b) horses = Ok (payout_odds b) /\
                expected_value b = probability b * payout_odds b - 1 /\
                _calculate_kelly_fraction (probability b) (payout_odds b)
                  = Ok (kelly_fraction b) /\
                _calculate_confidence_score (combination b) horses (probability b)
                  = Ok (confidence_score b)) bs).
    { intros bs Hbs. eapply Forall_impl; [|apply (IH _ Hbs)].
      intros b (A & B & C). split; [exact A|]. split; [now right|exact C]. }
    destruct (Qltb p min_probability_threshold); [now apply IH'|].
    destruct (payout c horses) as [po|] eqn:Ep; cbn [bind] in H;
      [|discriminate H].
    destruct (_calculate_kelly_fraction p po) as [kf|] eqn:Ek; cbn [bind] in H;
      [|discriminate H].
    destruct (_calculate_confidence_score c horses p) as [cs|] eqn:Ec;
      cbn [bind] in H; [|discriminate H].
    destruct (make_bets ty payout horses entries) as [bs|] eqn:Eb;
      cbn [bind] in H; [|discriminate H].
    assert (Hb : bets = mkExoticBet ty c p po (p * po - 1) kf cs :: bs)
      by congruence.
    subst bets. constructor; [|now apply IH'].
    cbn [bet_type combination probability payout_odds expected_value
         kelly_fraction confidence_score].
    repeat split; try assumption. now left.
Qed.

Lemma generated_from_made (ty : BetType) (horses : list Horse) (m : Z) bets :
  generate_combinations ty horses m = Ok bets ->
  exists d made,
    joint_probabilities ty horses = Ok d /\
    make_bets ty (estimate_payout ty) horses (PyDict.items d) = Ok made /\
    bets = py_prefix m (sorted_desc expected_value made).
Proof.
  rewrite generate_combinations_steps.
  destruct (joint_probabilities ty horses) as [d|] eqn:Ed; cbn [bind];
    [|discriminate].
  destruct (make_bets _ _ _ _) as [made|] eqn:Em; cbn [bind]; [|discriminate].
  intro H. exists d, made. split; [reflexivity|]. split; [exact Em|].
  congruence.
Qed.

Lemma py_max_ge_l (a b : Q) : a <= py_max a b.
Proof.
  unfold py_max. destruct (Qltb a b) eqn:E; [apply Qltb_lt in E|]; lra.
Qed.

Lemma py_max_ge_r (a b : Q) : b <= py_max a b.
Proof.
  unfold py_max. destruct (Qltb a b) eqn:E; [|apply Qltb_ge in E]; lra.
Qed.

Lemma estimate_payout_floor (ty : BetType) (c : tuple) (horses : list Horse) v :
  estimate_payout ty c horses = Ok v -> min_payout ty <= v.
Proof.
  destruct ty; simpl.
  - unfold _estimate_exacta_payout.
    destruct (item c 0); cbn [bind]; [|discriminate].
    destruct (next_horse horses a); cbn [bind]; [|discriminate].
    destruct (item c 1); cbn [bind]; [|discriminate].
    destruct (next_horse horses a1); cbn [bind]; [|discriminate].
    intro H. assert (E : v = py_max (odds a0 * odds a2 * (8 # 10)) 2) by congruence.
    rewrite E. apply py_max_ge_r.
  - unfold _estimate_trifecta_payout.
    destruct (combination_odds c horses); cbn [bind]; [|discriminate].
    intro H. assert (E : v = py_max (np_prod a * (75 # 100)) 5) by congruence.
    rewrite E. apply py_max_ge_r.
  - unfold _estimate_superfecta_payout.
    destruct (combination_odds c horses); cbn [bind]; [|discriminate].
    intro H. assert (E : v = py_max (np_prod a * (7 # 10)) 10) by congruence.
    rewrite E. apply py_max_ge_r.
Qed.

(** Every bet a generator returns carries the type of the generator, as many
    identifiers as the type needs, all of them identifiers of the field; its
    probability is the one the mapping gives to its combination, its payout
    is at least the floor of the type (2, 5 or 10) and its expected value is
    probability * payout - 1. *)
Theorem generated_bet_fields
  (ty : BetType) (horses : list Horse) (m : Z) (bets : list ExoticBet) :
  generate_combinations ty horses m = Ok bets ->
  exists d,
    joint_probabilities ty horses = Ok d /\
    Forall (fun b =>
              bet_type b = ty /\
              length (combination b) = arity ty /\
              (forall x, In x (combination b) -> In x (map id horses)) /\
              PyDict.get (combination b) d <> None /\
              In (combination b, probability b) (PyDict.items d) /\
              min_payout ty <= payout_odds b /\
              expected_value b = probability b * payout_odds b - 1) bets.
Proof.
  intro H. destruct (generated_from_made _ _ _ _ H) as (d & made & Ed & Em & ->).
  exists d. split; [exact Ed|].
  apply Forall_forall. intros b Hb. apply In_py_prefix in Hb.
  apply (Permutation_in _ (sorted_desc_perm expected_value made)) in Hb.
  pose proof (make_bets_inv _ _ _ _ _ Em) as F. rewrite Forall_forall in F.
  destruct (F b Hb) as (T & I & P & E & _).
  assert (K : In (combination b) (PyDict.keys d)).
  { unfold PyDict.keys. change (combination b) with (fst (combination b, probability b)).
    now apply in_map. }
  destruct (joint_probabilities_keys ty horses d _ Ed K) as (L & Ids).
  repeat split; try assumption.
  - now apply get_In_keys.
  - now apply (estimate_payout_floor ty (combination b) horses).
Qed.

Lemma generated_bet_fields_witness :
  exists bets d,
    generate_combinations trifecta small_field 15 = Ok bets /\
    joint_probabilities trifecta small_field = Ok d /\
    bets <> [] /\
    Forall (fun b => bet_type b = trifecta /\ 5 <= payout_odds b) bets.
Proof.
  destruct (generate_combinations trifecta small_field 15) as [bets|] eqn:E;
    [|vm_compute in E; discriminate E].
  destruct (generated_bet_fields trifecta small_field 15 bets E) as (d & Ed & F).
  exists bets, d. split; [reflexivity|]. split; [exact Ed|]. split.
  - intros ->. vm_compute in E. discriminate E.
  - eapply Forall_impl; [|exact F]. intros b Hb. split; apply Hb.
Defined.





Lemma StronglySorted_app_l {A : Type} (R : A -> A -> Prop) (l1 l2 : list A) :
  StronglySorted R (l1 ++ l2) -> StronglySorted R l1.
Proof.
  induction l1 as [|x l1 IH]; simpl; intro S; [constructor|].
  inversion S as [|? ? S' F]; subst. constructor; [now apply IH|].
  rewrite Forall_forall in *. intros y Hy. apply F. apply in_or_app. now left.
Qed.

Lemma py_prefix_firstn {A : Type} (m : Z) (l : list A) :
  exists k, py_prefix m l = firstn k l /\ ((0 <= m)%Z -> k = Z.to_nat m).
Proof.
  unfold py_prefix. destruct (Z.leb_spec 0 m).
  - now exists (Z.to_nat m).
  - exists (length l - Z.to_nat (- m))%nat. split; [reflexivity|lia].
Qed.

(** The bets a generator returns come by expected value, largest first,
    at most [max_combinations] of them (none for 0), and none of the bets
    that were built and left out has a larger expected value than one that
    is returned. *)
Theorem generated_bets_ranked
  (ty : BetType) (horses : list Horse) (m : Z) (bets : list ExoticBet) :
  generate_combinations ty horses m = Ok bets ->
  StronglySorted (fun a b => expected_value b <= expected_value a) bets /\
  ((0 <= m)%Z -> (length bets <= Z.to_nat m)%nat) /\
  exists d made left_out,
    joint_probabilities ty horses = Ok d /\
    make_bets ty (estimate_payout ty) horses (PyDict.items d) = Ok made /\
    Permutation (bets ++ left_out) made /\
    forall a b, In a bets -> In b left_out ->
      expected_value b <= expected_value a.
Proof.
  intro H. destruct (generated_from_made _ _ _ _ H) as (d & made & Ed & Em & ->).
  destruct (py_prefix_firstn m (sorted_desc expected_value made)) as (k & -> & Hk).
  pose proof (sorted_desc_sorted expected_value made) as S.
  rewrite <- (firstn_skipn k (sorted_desc expected_value made)) in S.
  split; [|split].
  - apply (StronglySorted_app_l _ _ _ S).
  - intro Hm. rewrite length_firstn, (Hk Hm). lia.
  - exists d, made, (skipn k (sorted_desc expected_value made)).
    split; [exact Ed|]. split; [exact Em|]. split.
    + rewrite firstn_skipn. apply sorted_desc_perm.
    + now apply sorted_split.
Qed.

Lemma generated_bets_ranked_witness :
  exists bets,
    generate_combinations exacta small_field 5 = Ok bets /\
    length bets = 5%nat /\
    StronglySorted (fun a b => expected_value b <= expected_value a) bets.
Proof.
  destruct (generate_combinations exacta small_field 5) as [bets|] eqn:E;
    [|vm_compute in E; discriminate E].
  exists bets. split; [reflexivity|]. split.
  - vm_compute in E. injection E as <-. reflexivity.
  - exact (proj1 (generated_bets_ranked exacta small_field 5 bets E)).
Defined.

Lemma kelly_total (p po : Q) : exists k, _calculate_kelly_fraction p po = Ok k.
Proof.
  destruct (Qlt_le_dec 1 po) as [H|H].
  - rewrite (kelly_above_one p po H). now eexists.
  - rewrite (kelly_at_most_one p po H). now eexists.
Qed.

Lemma lookups_total (horses : list Horse) (c : tuple) :
  (forall x, In x c -> In x (map id horses)) ->
  exists hs, mapM (next_horse horses) c = Ok hs.
Proof.
  intro H. apply mapM_total. intros x Hx. now apply next_horse_In, H.
Qed.

Lemma estimate_payout_total (ty : BetType) (horses : list Horse) (c : tuple) :
  length c = arity ty -> (forall x, In x c -> In x (map id horses)) ->
  exists v, estimate_payout ty c horses = Ok v.
Proof.
  intros L I. destruct ty; simpl in *.
  - destruct c as [|x [|y [|? ?]]]; try discriminate L.
    unfold _estimate_exacta_payout. cbn [item nth_error bind].
    destruct (next_horse_In horses x) as (h1 & ->); [apply I; simpl; tauto|].
    destruct (next_horse_In horses y) as (h2 & ->); [apply I; simpl; tauto|].
    cbn [bind]. now eexists.
  - unfold _estimate_trifecta_payout, combination_odds.
    destruct (mapM_total (fun horse_id => horse <- next_horse horses horse_id ;;
                                         Ok (odds horse)) c) as (os & ->).
    + intros x Hx. destruct (next_horse_In horses x (I x Hx)) as (h & ->).
      cbn [bind]. now eexists.
    + cbn [bind]. now eexists.
  - unfold _estimate_superfecta_payout, combination_odds.
    destruct (mapM_total (fun horse_id => horse <- next_horse horses horse_id ;;
                                         Ok (odds horse)) c) as (os & ->).
    + intros x Hx. destruct (next_horse_In horses x (I x Hx)) as (h & ->).
      cbn [bind]. now eexists.
    + cbn [bind]. now eexists.
Qed.

Lemma make_bets_total (ty : BetType) (horses : list Horse) entries :
  (forall c p, In (c, p) entries ->
     length c = arity ty /\ forall x, In x c -> In x (map id horses)) ->
  exists bets, make_bets ty (estimate_payout ty) horses entries = Ok bets.
Proof.
  induction entries as [|[c p] entries IH]; intro H; [now eexists|].
  destruct IH as (bs & Ebs); [intros c' p' Hin; apply (H c' p'); now right|].
  cbn [make_bets]. destruct (Qltb p min_probability_threshold); [now exists bs|].
  destruct (H c p (or_introl eq_refl)) as (L & I).
  destruct (estimate_payout_total ty horses c L I) as (v & ->). cbn [bind].
  destruct (kelly_total p v) as (k & ->). cbn [bind].
  unfold _calculate_confidence_score.
  destruct (lookups_total horses c I) as (hs & ->). cbn [bind].
  rewrite Ebs. cbn [bind]. now eexists.
Qed.

(** A generator raises only what the probability computation raises: when
    the mapping is returned the bets are returned, for any field and any
    [max_combinations]; the lookups by identifier, the payout, the Kelly
    fraction and the confidence score never fail on a key of the mapping. *)
Theorem generator_fails_only_with_the_mapping
  (ty : BetType) (horses : list Horse) (m : Z) :
  match joint_probabilities ty horses with
  | Ok d => exists bets, generate_combinations ty horses m = Ok bets
  | Raise e => generate_combinations ty horses m = Raise e
  end.
Proof.
  rewrite generate_combinations_steps.
  destruct (joint_probabilities ty horses) as [d|e] eqn:Ed; cbn [bind];
    [|reflexivity].
  destruct (make_bets_total ty horses (PyDict.items d)) as (made & ->).
  - intros c p Hin. apply (joint_probabilities_keys ty horses d c Ed).
    unfold PyDict.keys. change c with (fst (c, p)). now apply in_map.
  - cbn [bind]. now eexists.
Qed.

(** ** Signals: strength, stake, history *)

Lemma generate_ev_signals_sorted clock self bets :
  StronglySorted (fun a b => signal_strength b <= signal_strength a)
                 (fst (generate_ev_signals clock self bets)).
Proof. unfold generate_ev_signals. simpl. apply sorted_desc_sorted. Qed.

Lemma generate_ev_signals_length clock self bets :
  length (fst (generate_ev_signals clock self bets))
  = length (filter (fun bet => Qltb (min_ev_threshold self) (expected_value bet))
                   bets).
Proof.
  unfold generate_ev_signals. simpl.
  rewrite (Permutation_length (sorted_desc_perm _ _)).
  apply build_signals_length.
Qed.

Lemma filter_length_le {A : Type} (f : A -> bool) (l : list A) :
  (length (filter f l) <= length l)%nat.
Proof.
  induction l as [|x l IH]; simpl; [lia|]. destruct (f x); simpl; lia.
Qed.

(** Signals built from bets with scores in range (as the generators return
    them), under a threshold that is not negative: they come by strength,
    largest first; each has a strength within (0, 1], an expected value
    above the threshold, a positive Kelly fraction, and a recommended stake
    of 1000 times its Kelly fraction, within (0, 250]. *)
Theorem signals_of_sound_bets
  (clock : nat -> Z) (self : EVSignalGenerator) (bets : list ExoticBet) :
  0 <= min_ev_threshold self ->
  Forall (fun b =>
            0 <= kelly_fraction b <= 25 # 100 /\
            0 <= confidence_score b <= 1 /\
            (0 < kelly_fraction b <-> 0 < expected_value b)) bets ->
  let signals := fst (generate_ev_signals clock self bets) in
  StronglySorted (fun a b => signal_strength b <= signal_strength a) signals /\
  Forall (fun s =>
            0 < signal_strength s <= 1 /\
            min_ev_threshold self < sig_expected_value s /\
            0 < sig_kelly_fraction s /\
            recommended_stake s == 1000 * sig_kelly_fraction s /\
            0 < recommended_stake s <= 250) signals.
Proof.
  intros T F signals. split; [apply generate_ev_signals_sorted|].
  apply Forall_forall. intros s Hs. apply generate_ev_signals_In in Hs.
  apply build_signals_In in Hs. destruct Hs as (t & b & Hb & ->).
  apply filter_In in Hb. destruct Hb as (Hb & E). apply Qltb_lt in E.
  rewrite Forall_forall in F. destruct (F b Hb) as (K & C & S).
  assert (Kpos : 0 < kelly_fraction b) by (apply S; lra).
  cbn [signal_of signal_strength sig_expected_value sig_kelly_fraction
       recommended_stake].
  unfold _calculate_signal_strength, _calculate_recommended_stake.
  pose proof (py_min_le_r (expected_value b * 2) 1).
  pose proof (py_min_le_r (kelly_fraction b * 4) 1).
  assert (0 < py_min (expected_value b * 2) 1).
  { unfold py_min. destruct (Qltb 1 (expected_value b * 2)); lra. }
  assert (0 < py_min (kelly_fraction b * 4) 1).
  { unfold py_min. destruct (Qltb 1 (kelly_fraction b * 4)); lra. }
  split; [lra|]. split; [exact E|]. split; [exact Kpos|].
  split; [reflexivity|lra].
Qed.

Lemma signals_of_sound_bets_witness :
  let bet := mkExoticBet exacta [1; 2]%Z (15 # 100) 8 (2 # 10) (2 # 70) (1 # 2) in
  let signals :=
    fst (generate_ev_signals (fun _ => 0%Z) new_signal_generator [bet]) in
  length signals = 1%nat /\
  Forall (fun s => 0 < signal_strength s <= 1 /\ 0 < recommended_stake s <= 250)
         signals.
Proof.
  intros bet signals. split; [reflexivity|].
  assert (T : 0 <= min_ev_threshold new_signal_generator) by concrete_bound.
  assert (F : Forall (fun b =>
            0 <= kelly_fraction b <= 25 # 100 /\
            0 <= confidence_score b <= 1 /\
            (0 < kelly_fraction b <-> 0 < expected_value b)) [bet]).
  { constructor; [|constructor]. simpl.
    split; [split; concrete_bound|]. split; [split; concrete_bound|].
    split; intros _; reflexivity. }
  destruct (signals_of_sound_bets (fun _ => 0%Z) new_signal_generator [bet] T F)
    as (_ & P).
  eapply Forall_impl; [|exact P]. intros s Hs. split; apply Hs.
Defined.

(** The history only grows, and [get_top_signals] ranks all of it: after a
    run the history is the old one followed by the signals of the run, the
    threshold is unchanged, and for [n >= 0] the top [n] are the
    min(n, length of the history) strongest signals of the whole history,
    largest first, signals of earlier runs included. *)
Theorem top_signals_span_the_history
  (clock : nat -> Z) (self : EVSignalGenerator) (bets : list ExoticBet) (n : Z) :
  (0 <= n)%Z ->
  let signals := fst (generate_ev_signals clock self bets) in
  let self' := snd (generate_ev_signals clock self bets) in
  let top := get_top_signals self' n in
  signal_history self' = signal_history self ++ signals /\
  min_ev_threshold self' = min_ev_threshold self /\
  length top = Nat.min (Z.to_nat n) (length (signal_history self ++ signals)) /\
  StronglySorted (fun a b => signal_strength b <= signal_strength a) top /\
  exists others,
    Permutation (top ++ others) (signal_history self ++ signals) /\
    forall a b, In a top -> In b others ->
      signal_strength b <= signal_strength a.
Proof.
  intros Hn signals self' top.
  assert (H : signal_history self' = signal_history self ++ signals) by reflexivity.
  split; [exact H|]. split; [reflexivity|].
  subst top. unfold get_top_signals. rewrite H.
  set (history := signal_history self ++ signals).
  destruct (py_prefix_firstn n (sorted_desc signal_strength history))
    as (k & -> & Hk).
  rewrite (Hk Hn).
  pose proof (sorted_desc_sorted signal_strength history) as S.
  rewrite <- (firstn_skipn (Z.to_nat n) (sorted_desc signal_strength history)) in S.
  split; [|split].
  - rewrite length_firstn. f_equal.
    apply Permutation_length, sorted_desc_perm.
  - apply (StronglySorted_app_l _ _ _ S).
  - exists (skipn (Z.to_nat n) (sorted_desc signal_strength history)). split.
    + rewrite firstn_skipn. apply sorted_desc_perm.
    + now apply sorted_split.
Qed.

Lemma top_signals_span_the_history_witness :
  let old := signal_of 0 (mkExoticBet exacta [1; 2]%Z (15 # 100) 8 (2 # 10)
                                      (2 # 70) (9 # 10)) in
  let bet := mkExoticBet exacta [2; 1]%Z (15 # 100) 8 (2 # 10) (2 # 70) (1 # 2) in
  let self := mkEVSignalGenerator (5 # 100) [old] in
  let self' := snd (generate_ev_signals (fun _ => 1%Z) self [bet]) in
  length (signal_history self') = 2%nat /\
  get_top_signals self' 1 = [old].
Proof.
  intros old bet self self'.
  assert (Hn : (0 <= 1)%Z) by lia.
  destruct (top_signals_span_the_history (fun _ => 1%Z) self [bet] 1 Hn)
    as (H & _).
  split.
  - fold self' in H. rewrite H. reflexivity.
  - reflexivity.
Defined.

(** ** Summary statistics and the report *)

Lemma fold_max_spec (t : list Q) :
  forall x,
    let m := fold_left (fun m y => if Qltb m y then y else m) t x in
    x <= m /\ (forall y, In y t -> y <= m) /\ (m = x \/ In m t).
Proof.
  induction t as [|z t IH]; intro x; cbn [fold_left].
  - split; [lra|]. split; [intros y []|now left].
  - destruct (Qltb x z) eqn:E.
    + apply Qltb_lt in E. destruct (IH z) as (A & B & C).
      split; [lra|]. split.
      * intros y [<-|Hy]; [exact A|now apply B].
      * right. destruct C as [->|C]; [now left|now right].
    + apply Qltb_ge in E. destruct (IH x) as (A & B & C).
      split; [exact A|]. split.
      * intros y [<-|Hy]; [lra|now apply B].
      * destruct C as [C|C]; [now left|right; now right].
Qed.

Lemma py_sum_le_const (l : list Q) (m : Q) :
  Forall (fun y => y <= m) l ->
  py_sum l <= m * inject_Z (Z.of_nat (length l)).
Proof.
  induction 1 as [|y l Hy _ IH].
  - change (0 <= m * 0). rewrite Qmult_0_r. lra.
  - rewrite py_sum_cons. cbn [length].
    rewrite Nat2Z.inj_succ. unfold Z.succ. rewrite inject_Z_plus.
    rewrite Qmult_plus_distr_r.
    assert (E : m * inject_Z 1 == m) by (unfold inject_Z; ring).
    rewrite E. lra.
Qed.

Lemma length_pos_Q {A : Type} (x : A) (l : list A) :
  0 < inject_Z (Z.of_nat (length (x :: l))).
Proof.
  change 0 with (inject_Z 0). rewrite <- Zlt_Qlt. simpl length. lia.
Qed.

(** The summary statistics are the empty dictionary when there is no bet.
    Otherwise they are always returned: the counts are the lengths of the
    two lists, the rate is their quotient, the maximum is the expected
    value of one of the bets and no bet has a larger one, the average is at
    most the maximum, and the Kelly total is not negative when no Kelly
    fraction is. *)
Theorem summary_statistics (signals : list Signal) :
  _calculate_summary_stats [] signals = Ok None /\
  forall bet bets,
    let all_bets := bet :: bets in
    exists stats,
      _calculate_summary_stats all_bets signals = Ok (Some stats) /\
      total_combinations_analyzed stats = length all_bets /\
      profitable_opportunities stats = length signals /\
      profitability_rate stats
        == inject_Z (Z.of_nat (length signals))
           / inject_Z (Z.of_nat (length all_bets)) /\
      (forall b, In b all_bets -> expected_value b <= max_expected_value stats) /\
      (exists b, In b all_bets /\ max_expected_value stats = expected_value b) /\
      average_expected_value stats <= max_expected_value stats /\
      (Forall (fun b => 0 <= kelly_fraction b) all_bets ->
       0 <= total_kelly_allocation stats).
Proof.
  split; [reflexivity|]. intros bet bets all_bets.
  pose proof (length_pos_Q bet bets) as Lpos. fold all_bets in Lpos.
  unfold _calculate_summary_stats. subst all_bets.
  rewrite fdiv_ok by lra. cbn [bind map np_max].
  eexists. split; [reflexivity|].
  cbn [total_combinations_analyzed profitable_opportunities profitability_rate
       max_expected_value average_expected_value total_kelly_allocation].
  destruct (fold_max_spec (map expected_value bets) (expected_value bet))
    as (A & B & C).
  set (mx := fold_left (fun m y => if Qltb m y then y else m)
                       (map expected_value bets) (expected_value bet)) in *.
  assert (All : forall b, In b (bet :: bets) -> expected_value b <= mx).
  { intros b [<-|Hb]; [exact A|]. apply B. now apply in_map. }
  split; [reflexivity|]. split; [reflexivity|]. split; [reflexivity|].
  split; [exact All|]. split; [|split].
  - destruct C as [C|C].
    + exists bet. split; [now left|exact C].
    + apply in_map_iff in C. destruct C as (b & E & Hb).
      exists b. split; [now right|now symmetry].
  - unfold np_mean. apply Qle_shift_div_r.
    + change (expected_value bet :: map expected_value bets)
        with (map expected_value (bet :: bets)).
      rewrite length_map. exact Lpos.
    + apply py_sum_le_const. apply Forall_forall. intros y Hy.
      change (expected_value bet :: map expected_value bets)
        with (map expected_value (bet :: bets)) in Hy.
      apply in_map_iff in Hy. destruct Hy as (b & <- & Hb). now apply All.
  - intro K. apply py_sum_nonneg. apply Forall_forall. intros y Hy.
    apply in_map_iff in Hy. destruct Hy as (b & <- & Hb).
    apply filter_In in Hb. rewrite Forall_forall in K. apply K, Hb.
Qed.

Lemma generated_length (ty : BetType) (horses : list Horse) (m : Z) bets :
  (0 <= m)%Z -> generate_combinations ty horses m = Ok bets ->
  (length bets <= Z.to_nat m)%nat.
Proof.
  intros Hm H. destruct (generated_from_made _ _ _ _ H) as (d & made & _ & _ & ->).
  destruct (py_prefix_firstn m (sorted_desc expected_value made)) as (k & -> & Hk).
  rewrite length_firstn, (Hk Hm). lia.
Qed.

Lemma summary_stats_inv (all_bets : list ExoticBet) (signals : list Signal) o :
  _calculate_summary_stats all_bets signals = Ok o ->
  match o with
  | None => all_bets = []
  | Some stats =>
      all_bets <> [] /\
      total_combinations_analyzed stats = length all_bets /\
      profitable_opportunities stats = length signals /\
      profitability_rate stats
        == inject_Z (Z.of_nat (length signals))
           / inject_Z (Z.of_nat (length all_bets))
  end.
Proof.
  destruct all_bets as [|bet bets]; cbn [_calculate_summary_stats].
  - intro H. assert (o = None) by congruence. now subst.
  - rewrite fdiv_ok by (pose proof (length_pos_Q bet bets); lra).
    cbn [bind map np_max]. intro H.
    destruct o as [stats|]; [|discriminate H].
    assert (E : stats = mkSummaryStats (length (bet :: bets)) (length signals)
                 (inject_Z (Z.of_nat (length signals))
                  / inject_Z (Z.of_nat (length (bet :: bets))))
                 (np_mean (expected_value bet :: map expected_value bets))
                 (fold_left (fun m y => if Qltb m y then y else m)
                            (map expected_value bets) (expected_value bet))
                 (py_sum (map kelly_fraction
                            (filter (fun b => Qltb 0 (expected_value b))
                                    (bet :: bets))))) by congruence.
    subst stats. split; [discriminate|]. repeat split.
Qed.


(** The report of a run that returns: it counts the horses of the input and
    lists them in the input order; it counts at most 20 exacta, 15 trifecta
    and 10 superfecta bets and no more signals than bets; its top
    opportunities are the first min(10, number of signals) signals, which
    the history of the generator receives after what it held; its summary
    is empty exactly when no bet was generated, and otherwise counts all
    the bets and gives a profitability rate within [0, 1]. *)
Theorem optimization_report
  (clock : nat -> Z) (signal_generator signal_generator' : EVSignalGenerator)
  (horses : list Horse) (report : Report) :
  optimize_exotic_bets_results clock signal_generator horses
    = Ok (report, signal_generator') ->
  let bets := (exacta_count report + trifecta_count report
               + superfecta_count report)%nat in
  total_horses report = length horses /\
  map entry_id (calibrated_horses report) = map id horses /\
  (exacta_count report <= 20)%nat /\
  (trifecta_count report <= 15)%nat /\
  (superfecta_count report <= 10)%nat /\
  (profitable_signals report <= bets)%nat /\
  length (top_opportunities report) = Nat.min 10 (profitable_signals report) /\
  (exists later,
     signal_history signal_generator'
     = signal_history signal_generator ++ top_opportunities report ++ later) /\
  (summary_stats report = None <-> bets = 0%nat) /\
  (forall stats, summary_stats report = Some stats ->
     total_combinations_analyzed stats = bets /\
     profitable_opportunities stats = profitable_signals report /\
     0 <= profitability_rate stats <= 1).
Proof.
  unfold optimize_exotic_bets_results. rewrite calibrate_ok. cbn [bind].
  set (calibrated := map _ horses).
  change (generate_exacta_combinations calibrated 20)
    with (generate_combinations exacta calibrated 20).
  change (generate_trifecta_combinations calibrated 15)
    with (generate_combinations trifecta calibrated 15).
  change (generate_superfecta_combinations calibrated 10)
    with (generate_combinations superfecta calibrated 10).
  destruct (generate_combinations exacta calibrated 20) as [ex|] eqn:E2;
    cbn [bind]; [|discriminate].
  destruct (generate_combinations trifecta calibrated 15) as [tri|] eqn:E3;
    cbn [bind]; [|discriminate].
  destruct (generate_combinations superfecta calibrated 10) as [sup|] eqn:E4;
    cbn [bind]; [|discriminate].
  set (all := ex ++ tri ++ sup).
  pose proof (generate_ev_signals_length clock signal_generator all) as SL.
  destruct (generate_ev_signals clock signal_generator all) as [sigs sg'] eqn:G.
  cbn [fst] in SL.
  destruct (_calculate_summary_stats all sigs) as [o|] eqn:S; cbn [bind];
    [|discriminate].
  intro H. injection H as <- <-.
  cbn [total_horses calibrated_horses exacta_count trifecta_count
       superfecta_count profitable_signals top_opportunities summary_stats].
  assert (LA : length all = (length ex + length tri + length sup)%nat).
  { subst all. rewrite !length_app. lia. }
  assert (LS : (length sigs <= length all)%nat).
  { rewrite SL. apply filter_length_le. }
  assert (Hsg : signal_history sg' = signal_history signal_generator ++ sigs).
  { unfold generate_ev_signals in G. injection G as <- <-. reflexivity. }
  apply summary_stats_inv in S.
  split; [reflexivity|]. split.
  { subst calibrated. rewrite !map_map. reflexivity. }
  split; [apply (generated_length exacta calibrated 20 ex); [lia|exact E2]|].
  split; [apply (generated_length trifecta calibrated 15 tri); [lia|exact E3]|].
  split; [apply (generated_length superfecta calibrated 10 sup); [lia|exact E4]|].
  split; [lia|]. split.
  { unfold py_prefix. cbn [Z.leb Z.compare Z.to_nat Pos.to_nat Pos.iter_op].
    apply length_firstn. }
  split.
  { exists (skipn 10 sigs). rewrite Hsg. f_equal.
    unfold py_prefix. cbn [Z.leb Z.compare]. symmetry. apply firstn_skipn. }
  split.
  { destruct o as [stats|].
    - destruct S as (Hne & _). split; [discriminate|]. intro Z0.
      exfalso. apply Hne. apply length_zero_iff_nil. lia.
    - split; [intros _|reflexivity]. rewrite S in LA. simpl in LA. lia. }
  intros stats Ho. subst o. destruct S as (Hne & T & P & R).
  split; [lia|]. split; [exact P|].
  assert (Lpos : 0 < inject_Z (Z.of_nat (length all))).
  { change 0 with (inject_Z 0). rewrite <- Zlt_Qlt.
    destruct all; [congruence|simpl; lia]. }
  rewrite R. split.
  - apply Qle_shift_div_l; [exact Lpos|]. rewrite Qmult_0_l.
    change 0 with (inject_Z 0). rewrite <- Zle_Qle. lia.
  - apply Qle_shift_div_r; [exact Lpos|]. rewrite Qmult_1_l.
    rewrite <- Zle_Qle. lia.
Qed.

Lemma optimization_report_witness :
  exists report signal_generator',
    optimize_exotic_bets_results (fun _ => 0%Z) new_signal_generator
                                 two_favourites
      = Ok (report, signal_generator') /\
    total_horses report = 2%nat /\
    (exacta_count report <= 20)%nat /\
    trifecta_count report = 0%nat.
Proof.
  destruct (optimize_exotic_bets_results (fun _ => 0%Z) new_signal_generator
              two_favourites) as [[report sg']|] eqn:E;
    [|vm_compute in E; discriminate E].
  exists report, sg'. split; [reflexivity|].
  destruct (optimization_report (fun _ => 0%Z) new_signal_generator sg'
              two_favourites report E) as (T & _ & X & _).
  split; [exact T|]. split; [exact X|].
  vm_compute in E. injection E as <- _. reflexivity.
Defined.

(** ** What can fail on a valid race *)








